(** * quicklink: the prefetch dispatcher and the visibility scheduler

    A shallow embedding of [src/prefetch.mjs] and [src/index.mjs].

    The two modules keep their state in module-level bindings
    ([preFetched], [supportedPrefetchStrategy], [loaderFunctions] and the
    shared [observer]); here that state is one record, [World], threaded
    through every function.  The browser is a record [Env] of exactly the
    globals the code reads.  An [async] function is cut at its [await]: the
    part before it runs inside the call, the part after it runs when the
    environment delivers the event that settles the awaited promise. *)

From stdpp Require Import gmap strings list.

Open Scope string_scope.
Open Scope list_scope.

(** ** JavaScript completions and promises *)

(** What a statement can raise. *)
Inductive JsError :=
  | TypeError      (* reading a property of [undefined] *)
  | Rejection.     (* an [await] on a rejected promise *)

(** A completion: a normal value or a thrown error. *)
Inductive Completion (A : Type) :=
  | Normal (a : A)
  | Throw (e : JsError).
Arguments Normal {A} a.
Arguments Throw {A} e.

Definition bind {A B} (c : Completion A) (k : A → Completion B) : Completion B :=
  match c with
  | Normal a => k a
  | Throw e => Throw e
  end.

(** [try { body } catch (e) { handler }] *)
Definition try_catch {A} (body : Completion A) (handler : JsError → Completion A)
  : Completion A :=
  match body with
  | Normal a => Normal a
  | Throw e => handler e
  end.

Inductive Outcome := Fulfilled | Rejected.

Inductive PromiseState :=
  | Pending
  | Settled (o : Outcome).

(** [await p] once [p] has settled with [o]. *)
Definition await (o : Outcome) : Completion unit :=
  match o with
  | Fulfilled => Normal tt
  | Rejected => Throw Rejection
  end.

(** [String.prototype.includes]. *)
Fixpoint includes (needle hay : string) : bool :=
  String.prefix needle hay ||
  match hay with
  | EmptyString => false
  | String _ rest => includes needle rest
  end.

(** ** The browser environment *)

(** [fakeLink.relList]: [supports] is [None] when it is not a function;
    a call either returns a boolean or throws. *)
Record RelList := {
  supports : option (string → Completion bool)
}.

Inductive Container :=
  | HeadElement           (* document.getElementsByTagName(`head`)[0] *)
  | ParentOf (name : string). (* document.getElementsByName(name)[0].parentNode *)

Record Document := {
  relList : option RelList;   (* [None] when [fakeLink.relList] is falsy *)
  has_head : bool;            (* getElementsByTagName(`head`)[0] is an element *)
  has_named_script : bool     (* getElementsByName(`script`)[0] is an element *)
}.

(** [navigator.connection] *)
Record Connection := {
  effectiveType : option string;  (* [None] for [undefined] *)
  saveData : bool
}.

Record Env := {
  document : option Document;              (* [None]: typeof document === `undefined` *)
  self_fetch : bool;                       (* self.fetch !== undefined *)
  navigator_connection : option Connection (* [Some]: 'connection' in navigator *)
}.

(** ** Requests issued by the strategies *)

(** The promise's [resolve] and [reject], as values stored in handlers. *)
Definition resolve : Outcome := Fulfilled.
Definition reject : Outcome := Rejected.

Record LinkElement := {
  link_rel : string;
  link_href : string;
  link_onload : option Outcome;
  link_onerror : option Outcome
}.

Record XhrRequest := {
  xhr_method : string;
  xhr_url : string;
  xhr_async : bool;
  xhr_withCredentials : bool;
  xhr_onload : option (nat → Outcome);   (* receives [req.status] *)
  xhr_onerror : option Outcome
}.

Inductive Request :=
  | AppendLink (parent : Container) (link : LinkElement)
  | XhrSend (req : XhrRequest)
  | FetchCall (url : string) (credentials : string).

(** What the environment can report about a request in flight. *)
Inductive Event :=
  | LinkLoad                      (* load event of the link element *)
  | LinkError                     (* error event of the link element *)
  | XhrLoad (status : nat)        (* load event of the XMLHttpRequest *)
  | XhrError                      (* error event: transport-level failure *)
  | FetchResponse (status : nat)  (* fetch(): a response arrived, any status *)
  | FetchNetworkError.            (* fetch(): no response *)

(** The outcome an event gives the strategy's promise, if any: the event
    runs the handler the code attached; with no handler attached nothing
    settles.  The promise of [fetch] is the platform's own. *)
Definition handle (r : Request) (ev : Event) : option Outcome :=
  match r, ev with
  | AppendLink _ link, LinkLoad => link_onload link
  | AppendLink _ link, LinkError => link_onerror link
  | XhrSend req, XhrLoad status => (λ h, h status) <$> xhr_onload req
  | XhrSend req, XhrError => xhr_onerror req
  | FetchCall _ _, FetchResponse _ => Some Fulfilled
  | FetchCall _ _, FetchNetworkError => Some Rejected
  | _, _ => None
  end.

(** The result of calling a strategy: the request it issued, if it got that
    far, and the state of the promise it returned. *)
Record Invocation := {
  issued : option Request;
  promise : PromiseState
}.

(** [new Promise(executor)]: an executor that throws rejects the promise. *)
Definition new_Promise (executor : Completion Invocation) : Invocation :=
  match executor with
  | Normal inv => inv
  | Throw _ => {| issued := None; promise := Settled reject |}
  end.

(** ** prefetch.mjs *)

Inductive JsValue :=
  | JsBool (b : bool)
  | JsUndefined.

Definition truthy (v : JsValue) : bool :=
  match v with
  | JsBool b => b
  | JsUndefined => false
  end.

Definition support (env : Env) (feature : string) : JsValue :=
  match document env with
  | None => JsBool false
  | Some doc =>
      match relList doc with
      | Some rl =>
          match supports rl with
          | Some f =>
              match f feature with
              | Normal b => JsBool b
              | Throw _ => JsBool false
              end
          | None => JsUndefined
          end
      | None => JsUndefined
      end
  end.

Definition link_executor (env : Env) (url : string) : Completion Invocation :=
  match document env with
  | None => Normal {| issued := None; promise := Settled reject |}
  | Some doc =>
      let link := {| link_rel := "prefetch"; link_href := url;
                     link_onload := Some resolve; link_onerror := Some reject |} in
      bind (if has_head doc then Normal HeadElement
            else if has_named_script doc then Normal (ParentOf "script")
            else Throw TypeError)
           (λ parentElement,
              Normal {| issued := Some (AppendLink parentElement link);
                        promise := Pending |})
  end.

Definition linkPrefetchStrategy (env : Env) (url : string) : Invocation :=
  new_Promise (link_executor env url).

Definition xhr_request (url : string) : XhrRequest :=
  {| xhr_method := "GET"; xhr_url := url; xhr_async := true;
     xhr_withCredentials := true;
     xhr_onload := Some (λ status, if Nat.eqb status 200 then resolve else reject);
     xhr_onerror := None |}.

Definition xhrPrefetchStrategy (url : string) : Invocation :=
  new_Promise (Normal {| issued := Some (XhrSend (xhr_request url));
                         promise := Pending |}).

Definition highPriFetchStrategy (env : Env) (url : string) : Invocation :=
  if negb (self_fetch env) then xhrPrefetchStrategy url
  else {| issued := Some (FetchCall url "include"); promise := Pending |}.

(** The value of the constant [supportedPrefetchStrategy]. *)
Inductive Strategy := LinkPrefetch | XhrPrefetch.

Definition call_strategy (s : Strategy) (env : Env) (url : string) : Invocation :=
  match s with
  | LinkPrefetch => linkPrefetchStrategy env url
  | XhrPrefetch => xhrPrefetchStrategy url
  end.

Definition select_strategy (env : Env) : Strategy :=
  if truthy (support env "prefetch") then LinkPrefetch else XhrPrefetch.

(** *** Module state *)

Definition Priority := option string.   (* [None] for [undefined] *)

(** One call of [prefetcher] that got past its guards. *)
Inductive TaskStatus :=
  | Suspended                                   (* at the [await] *)
  | Returned (o : Outcome) (c : Completion unit).
      (* the strategy's promise settled with [o]; the async function's own
         promise was fulfilled ([Normal]) or rejected ([Throw]) *)

Record Task := {
  task_url : string;
  task_issued : option Request;
  task_status : TaskStatus
}.

(** An entry of [loaderFunctions]: the closure [() => {...}] with the
    [url] and the [options.priority] it captured. *)
Record Loader := {
  loader_url : string;
  loader_priority : Priority
}.

Record Anchor := {
  anchor_id : nat;
  href : string
}.

Record World := {
  preFetched : gset string;               (* own property names of [preFetched] *)
  supportedPrefetchStrategy : Strategy;
  loaderFunctions : gmap string Loader;
  observed : list Anchor;                 (* arguments of [observer.observe], in order *)
  tasks : list Task;                      (* strategy invocations, in order *)
  dispatched : list (string * Priority)   (* trace of the calls of [prefetcher] *)
}.

Definition set_preFetched (pf : gset string) (w : World) : World :=
  {| preFetched := pf;
     supportedPrefetchStrategy := supportedPrefetchStrategy w;
     loaderFunctions := loaderFunctions w;
     observed := observed w;
     tasks := tasks w;
     dispatched := dispatched w |}.

Definition set_loaderFunctions (lf : gmap string Loader) (w : World) : World :=
  {| preFetched := preFetched w;
     supportedPrefetchStrategy := supportedPrefetchStrategy w;
     loaderFunctions := lf;
     observed := observed w;
     tasks := tasks w;
     dispatched := dispatched w |}.

Definition set_observed (obs : list Anchor) (w : World) : World :=
  {| preFetched := preFetched w;
     supportedPrefetchStrategy := supportedPrefetchStrategy w;
     loaderFunctions := loaderFunctions w;
     observed := obs;
     tasks := tasks w;
     dispatched := dispatched w |}.

Definition set_tasks (ts : list Task) (w : World) : World :=
  {| preFetched := preFetched w;
     supportedPrefetchStrategy := supportedPrefetchStrategy w;
     loaderFunctions := loaderFunctions w;
     observed := observed w;
     tasks := ts;
     dispatched := dispatched w |}.

(** The trace entry of a call [prefetcher(url, priority)]. *)
Definition record_call (url : string) (priority : Priority) (w : World) : World :=
  {| preFetched := preFetched w;
     supportedPrefetchStrategy := supportedPrefetchStrategy w;
     loaderFunctions := loaderFunctions w;
     observed := observed w;
     tasks := tasks w;
     dispatched := dispatched w ++ [(url, priority)] |}.

(** The state once both modules are loaded. *)
Definition init (env : Env) : World :=
  {| preFetched := ∅;
     supportedPrefetchStrategy := select_strategy env;
     loaderFunctions := ∅;
     observed := [];
     tasks := [];
     dispatched := [] |}.

(** *** The object [preFetched]

    [preFetched] is an object literal and the only write to it is
    [preFetched[url] = true], so it is modelled by the set of its own
    property names, each holding [true].  A read [preFetched[url]] that
    finds no own property continues in [Object.prototype], whose
    properties are all truthy. *)
Definition object_prototype : list string :=
  [ "constructor"; "__defineGetter__"; "__defineSetter__"; "hasOwnProperty";
    "__lookupGetter__"; "__lookupSetter__"; "isPrototypeOf";
    "propertyIsEnumerable"; "toString"; "valueOf"; "__proto__";
    "toLocaleString" ].

(** Truthiness of [preFetched[url]]. *)
Definition preFetched_get (pf : gset string) (url : string) : bool :=
  bool_decide (url ∈ pf) || bool_decide (url ∈ object_prototype).

(** [preFetched[url] = true]; the setter of [__proto__] ignores a boolean. *)
Definition preFetched_put (url : string) (pf : gset string) : gset string :=
  if String.eqb url "__proto__" then pf else {[url]} ∪ pf.

(** *** prefetcher *)

(** The two guards on [navigator.connection]. *)
Definition network_gate (env : Env) : bool :=
  match navigator_connection env with
  | Some connection =>
      if includes "2g" (default "" (effectiveType connection)) then true
      else if saveData connection then true
      else false
  | None => false
  end.

(** [priority && priority === `high`] *)
Definition is_high (priority : Priority) : bool :=
  match priority with
  | Some p => String.eqb p "high"
  | None => false
  end.

(** The [try] block from the [await] on, and the empty [catch]. *)
Definition prefetcher_resume (url : string) (o : Outcome) (pf : gset string)
  : Completion (gset string) :=
  try_catch
    (bind (await o) (λ _, Normal (preFetched_put url pf)))
    (λ _, Normal pf).

(** The awaited promise settles with [o]: the rest of the call runs on
    world [w], and the call's task gets its final status. *)
Definition settle (url : string) (o : Outcome) (w : World) : World * TaskStatus :=
  match prefetcher_resume url o (preFetched w) with
  | Normal pf => (set_preFetched pf w, Returned o (Normal tt))
  | Throw e => (w, Returned o (Throw e))
  end.

(** The strategy call inside the [try] block. *)
Definition chosen (env : Env) (url : string) (priority : Priority) (w : World)
  : Invocation :=
  if is_high priority then highPriFetchStrategy env url
  else call_strategy (supportedPrefetchStrategy w) env url.

Definition prefetcher (env : Env) (url : string) (priority : Priority) (w : World)
  : World :=
  let w := record_call url priority w in
  if preFetched_get (preFetched w) url then w
  else if network_gate env then w
  else
    let inv := chosen env url priority w in
    match promise inv with
    | Pending =>
        set_tasks (tasks w ++ [{| task_url := url; task_issued := issued inv;
                                  task_status := Suspended |}]) w
    | Settled o =>
        let '(w', st) := settle url o w in
        set_tasks (tasks w' ++ [{| task_url := url; task_issued := issued inv;
                                   task_status := st |}]) w'
    end.

(** The environment delivers [ev] on the request of task [i]. *)
Definition deliver (i : nat) (ev : Event) (w : World) : World :=
  match tasks w !! i with
  | Some t =>
      match task_status t, task_issued t with
      | Suspended, Some r =>
          match handle r ev with
          | Some o =>
              let '(w', st) := settle (task_url t) o w in
              set_tasks (<[i := {| task_url := task_url t;
                                   task_issued := task_issued t;
                                   task_status := st |}]> (tasks w')) w'
          | None => w
          end
      | _, _ => w
      end
  | None => w
  end.

(** ** index.mjs *)

Record Entry := {
  isIntersecting : bool;
  target : Anchor
}.

(** The options after the merge with the defaults.  [el] is kept as what
    the code reads from it, the result of [el.querySelectorAll('a')]. *)
Record Options := {
  priority : Priority;
  timeout : nat;
  urls : option (list string);   (* [None]: absent, so falsy; an array is truthy *)
  el : list Anchor
}.

(** The caller's argument: each field may be absent. *)
Record UserOptions := {
  user_priority : option string;
  user_timeout : option nat;
  user_urls : option (list string);
  user_el : option (list Anchor)
}.

(** [{...{priority: 'low', timeout: 2000, ..., el: document}, ...options}];
    [document_anchors] are the anchors of the whole document. *)
Definition merge_options (document_anchors : list Anchor) (options : UserOptions)
  : Options :=
  {| priority := Some (default "low" (user_priority options));
     timeout := default 2000 (user_timeout options);
     urls := user_urls options;
     el := default document_anchors (user_el options) |}.

(** The closure stored by [loaderFunctions.set(url, () => {...})], called. *)
Definition call_loader (env : Env) (l : Loader) (w : World) : World :=
  let w := set_loaderFunctions (delete (loader_url l) (loaderFunctions w)) w in
  prefetcher env (loader_url l) (loader_priority l) w.

(** The body of the [forEach] in the observer's callback. *)
Definition on_entry (env : Env) (w : World) (entry : Entry) : World :=
  let url := href (target entry) in
  match loaderFunctions w !! url with
  | None => w
  | Some l => call_loader env l w
  end.

(** The callback given to [new IntersectionObserver]. *)
Definition observer_callback (env : Env) (entries : list Entry) (w : World) : World :=
  foldl (on_entry env) w (filter (λ entry, isIntersecting entry = true) entries).

(** [loaderFunctions.set(url, ...)] for one url of the pass. *)
Definition register (p : Priority) (w : World) (url : string) : World :=
  set_loaderFunctions
    (<[url := {| loader_url := url; loader_priority := p |}]> (loaderFunctions w)) w.

(** The function given to [options.timeoutFn]: one scheduling pass. *)
Definition scheduling_pass (env : Env) (options : Options) (w : World) : World :=
  match urls options with
  | Some us => foldl (λ w url, prefetcher env url (priority options) w) w us
  | None =>
      let linkTags := el options in
      let w := foldl (λ w link, set_observed (observed w ++ [link]) w) w linkTags in
      let urls := href <$> linkTags in
      foldl (register (priority options)) w urls
  end.

(** ** Runs of the page *)

(** Everything that can happen after the modules are loaded. *)
Inductive Action :=
  | Dispatch (url : string) (p : Priority)   (* a call of [prefetcher] *)
  | Deliver (i : nat) (ev : Event)           (* an event on the request of task [i] *)
  | Pass (options : Options)                 (* the deferred scheduling pass runs *)
  | Notify (entries : list Entry).           (* the observer's callback runs *)

Definition step (w : World) (ea : Env * Action) : World :=
  match ea.2 with
  | Dispatch url p => prefetcher ea.1 url p w
  | Deliver i ev => deliver i ev w
  | Pass options => scheduling_pass ea.1 options w
  | Notify entries => observer_callback ea.1 entries w
  end.

Definition run (w : World) (trace : list (Env * Action)) : World :=
  foldl step w trace.

(** Actions of the environment alone: no new call of the entry point or of
    the dispatcher. *)
Definition environment_action (a : Action) : bool :=
  match a with
  | Deliver _ _ | Notify _ => true
  | Dispatch _ _ | Pass _ => false
  end.

(** ** Observations *)

(** [url] counts as prefetched: the first guard of [prefetcher] fires. *)
Definition is_prefetched (w : World) (url : string) : bool :=
  preFetched_get (preFetched w) url.

(** Strategy invocations made for [url] so far. *)
Definition invocations (url : string) (w : World) : nat :=
  length (filter (λ t, task_url t = url) (tasks w)).

(** Calls of the dispatcher made for [url] so far. *)
Definition dispatches (url : string) (w : World) : nat :=
  length (filter (λ c, c.1 = url) (dispatched w)).

(** How the call that made task [i] ended. *)
Definition status_of (i : nat) (w : World) : option TaskStatus :=
  task_status <$> tasks w !! i.

(** The request task [i] issued. *)
Definition request_of (i : nat) (w : World) : option Request :=
  tasks w !! i ≫= task_issued.

(** ** Invariants of the registry *)

(** Every closure is stored under the url it captured. *)
Definition registry_wf (w : World) : Prop :=
  ∀ url l, loaderFunctions w !! url = Some l → loader_url l = url.

(** 1 when [loaderFunctions.has(url)], else 0. *)
Definition registered (url : string) (w : World) : nat :=
  if decide (is_Some (loaderFunctions w !! url)) then 1 else 0.

(** The invariant of a run of environment actions started in [w]. *)
Definition balanced (u : string) (w w' : World) : Prop :=
  registry_wf w'
  ∧ dispatches u w' + registered u w' = dispatches u w + registered u w
  ∧ (dispatches u w ≤ dispatches u w')%nat.

(** ** Invariants of the dispatcher *)



(** The task a call [prefetcher(url, priority)] leaves when it passes the
    guards in world [w]. *)
Definition task_of (env : Env) (priority : Priority) (w : World) (url : string)
  : Task :=
  {| task_url := url;
     task_issued := issued (chosen env url priority w);
     task_status := match promise (chosen env url priority w) with
                    | Pending => Suspended
                    | Settled o => Returned o (Normal tt)
                    end |}.

(** The entry the observer reports for an anchor that entered the viewport. *)
Definition intersecting (a : Anchor) : Entry :=
  {| isIntersecting := true; target := a |}.

(** ** Sample environments *)

(** A browser whose [relList.supports] knows [prefetch]. *)
Definition modern_document : Document :=
  {| relList := Some {| supports := Some (λ feature, Normal (String.eqb feature "prefetch")) |};
     has_head := true;
     has_named_script := false |}.

Definition modern_browser : Env :=
  {| document := Some modern_document; self_fetch := true;
     navigator_connection := Some {| effectiveType := Some "4g"; saveData := false |} |}.

(** A browser without [relList], [fetch] and [navigator.connection]. *)
Definition legacy_browser : Env :=
  {| document := Some {| relList := None; has_head := true; has_named_script := false |};
     self_fetch := false;
     navigator_connection := None |}.

(** A document with neither a head nor an element named [script]. *)
Definition bare_browser : Env :=
  {| document := Some {| relList := relList modern_document;
                         has_head := false; has_named_script := false |};
     self_fetch := true;
     navigator_connection := None |}.

Definition slow_browser : Env :=
  {| document := Some modern_document; self_fetch := true;
     navigator_connection := Some {| effectiveType := Some "slow-2g"; saveData := false |} |}.

Definition saver_browser : Env :=
  {| document := Some modern_document; self_fetch := true;
     navigator_connection := Some {| effectiveType := Some "4g"; saveData := true |} |}.

(** ** Sample pages *)

Definition anchor_a : Anchor := {| anchor_id := 0; href := "/a" |}.
Definition anchor_a' : Anchor := {| anchor_id := 1; href := "/a" |}.
Definition anchor_b : Anchor := {| anchor_id := 2; href := "/b" |}.

Definition scope_options : Options :=
  {| priority := Some "low"; timeout := 2000; urls := None;
     el := [anchor_a; anchor_a'; anchor_b] |}.

(** The options [{urls: ["/a", "/b"]}] in a document that links to both. *)
Definition list_options : Options :=
  merge_options [anchor_a; anchor_b]
    {| user_priority := None; user_timeout := None;
       user_urls := Some ["/a"; "/b"]; user_el := None |}.

(** A scope whose anchors have different hrefs. *)
Definition distinct_options : Options :=
  {| priority := Some "high"; timeout := 2000; urls := None;
     el := [anchor_a; anchor_b] |}.

(** A context in which [document] is not defined. *)
Definition no_document : Env :=
  {| document := None; self_fetch := true; navigator_connection := None |}.

(** The world after an XHR for "/a" was answered with 200. *)
Definition after_success : World :=
  deliver 0 (XhrLoad 200)
    (prefetcher legacy_browser "/a" (Some "low") (init legacy_browser)).

(** The world with an XHR for "/a" in flight. *)
Definition in_flight : World :=
  prefetcher legacy_browser "/a" (Some "low") (init legacy_browser).

(** * Properties *)

(** ** The record of own properties *)

Lemma preFetched_put_get url pf :
  preFetched_get pf url = false → preFetched_get (preFetched_put url pf) url = true.
Proof.
  unfold preFetched_get, preFetched_put. intros Hget.
  apply orb_false_iff in Hget as [_ Hproto].
  destruct (String.eqb_spec url "__proto__") as [-> | _].
  - by vm_compute in Hproto.
  - apply orb_true_iff. left. apply bool_decide_eq_true. set_solver.
Qed.

(** ** What settling does *)

Lemma prefetcher_resume_normal url o pf :
  prefetcher_resume url o pf
  = Normal (match o with Fulfilled => preFetched_put url pf | Rejected => pf end).
Proof. by destruct o. Qed.

Lemma settle_eq url o w :
  settle url o w
  = (set_preFetched
       (match o with Fulfilled => preFetched_put url (preFetched w)
                   | Rejected => preFetched w end) w,
     Returned o (Normal tt)).
Proof. unfold settle. by rewrite prefetcher_resume_normal. Qed.

Lemma set_preFetched_id w : set_preFetched (preFetched w) w = w.
Proof. by destruct w. Qed.

(** ** The strategies never return a fulfilled promise *)

Lemma linkPrefetchStrategy_promise env url :
  promise (linkPrefetchStrategy env url) = Pending
  ∨ promise (linkPrefetchStrategy env url) = Settled Rejected.
Proof.
  unfold linkPrefetchStrategy, link_executor.
  destruct (document env) as [doc |]; [| by right].
  destruct (has_head doc); [by left |].
  destruct (has_named_script doc); [by left | by right].
Qed.

Lemma highPriFetchStrategy_promise env url :
  promise (highPriFetchStrategy env url) = Pending.
Proof. unfold highPriFetchStrategy. by destruct (self_fetch env). Qed.

Lemma call_strategy_promise s env url :
  promise (call_strategy s env url) = Pending
  ∨ promise (call_strategy s env url) = Settled Rejected.
Proof. destruct s; [apply linkPrefetchStrategy_promise | by left]. Qed.

Lemma chosen_promise env url p w :
  promise (chosen env url p w) = Pending
  ∨ promise (chosen env url p w) = Settled Rejected.
Proof.
  unfold chosen. destruct (is_high p).
  - left. apply highPriFetchStrategy_promise.
  - apply call_strategy_promise.
Qed.

(** ** The three ways a call of [prefetcher] goes *)

Lemma prefetcher_deduped env url p w :
  is_prefetched w url = true → prefetcher env url p w = record_call url p w.
Proof. unfold prefetcher, is_prefetched. cbn. by intros ->. Qed.

Lemma prefetcher_gated env url p w :
  network_gate env = true → prefetcher env url p w = record_call url p w.
Proof.
  unfold prefetcher. cbn. intros ->.
  by destruct (preFetched_get (preFetched w) url).
Qed.

(** Past the guards, the call adds exactly one task: suspended when the
    strategy's promise is pending, returned when it was rejected on creation. *)
Lemma prefetcher_invokes env url p w :
  is_prefetched w url = false → network_gate env = false →
  prefetcher env url p w
  = set_tasks
      (tasks w ++ [{| task_url := url;
                      task_issued := issued (chosen env url p w);
                      task_status :=
                        match promise (chosen env url p w) with
                        | Pending => Suspended
                        | Settled o => Returned o (Normal tt)
                        end |}])
      (record_call url p w).
Proof.
  unfold prefetcher, is_prefetched. intros Hpf Hgate.
  change (preFetched (record_call url p w)) with (preFetched w).
  rewrite Hpf, Hgate.
  change (chosen env url p (record_call url p w)) with (chosen env url p w).
  destruct (chosen_promise env url p w) as [-> | ->]; [done |].
  by rewrite settle_eq.
Qed.

(** The fields a call of [prefetcher] leaves alone or extends. *)
Lemma prefetcher_dispatched env url p w :
  dispatched (prefetcher env url p w) = dispatched w ++ [(url, p)].
Proof.
  destruct (is_prefetched w url) eqn:Hpf;
    [by rewrite prefetcher_deduped |].
  destruct (network_gate env) eqn:Hgate;
    [by rewrite prefetcher_gated |].
  by rewrite prefetcher_invokes.
Qed.

Lemma prefetcher_preFetched env url p w :
  preFetched (prefetcher env url p w) = preFetched w.
Proof.
  destruct (is_prefetched w url) eqn:Hpf;
    [by rewrite prefetcher_deduped |].
  destruct (network_gate env) eqn:Hgate;
    [by rewrite prefetcher_gated |].
  by rewrite prefetcher_invokes.
Qed.

Lemma prefetcher_loaderFunctions env url p w :
  loaderFunctions (prefetcher env url p w) = loaderFunctions w.
Proof.
  destruct (is_prefetched w url) eqn:Hpf;
    [by rewrite prefetcher_deduped |].
  destruct (network_gate env) eqn:Hgate;
    [by rewrite prefetcher_gated |].
  by rewrite prefetcher_invokes.
Qed.

Lemma prefetcher_observed env url p w :
  observed (prefetcher env url p w) = observed w.
Proof.
  destruct (is_prefetched w url) eqn:Hpf;
    [by rewrite prefetcher_deduped |].
  destruct (network_gate env) eqn:Hgate;
    [by rewrite prefetcher_gated |].
  by rewrite prefetcher_invokes.
Qed.

Lemma prefetcher_strategy env url p w :
  supportedPrefetchStrategy (prefetcher env url p w) = supportedPrefetchStrategy w.
Proof.
  destruct (is_prefetched w url) eqn:Hpf;
    [by rewrite prefetcher_deduped |].
  destruct (network_gate env) eqn:Hgate;
    [by rewrite prefetcher_gated |].
  by rewrite prefetcher_invokes.
Qed.

(** ** Delivering an event *)

Lemma deliver_no_task i ev w : tasks w !! i = None → deliver i ev w = w.
Proof. unfold deliver. by intros ->. Qed.

Lemma deliver_returned i ev w t o c :
  tasks w !! i = Some t → task_status t = Returned o c → deliver i ev w = w.
Proof. unfold deliver. by intros -> ->. Qed.

Lemma deliver_unhandled i ev w t :
  tasks w !! i = Some t → (task_issued t ≫= λ r, handle r ev) = None →
  deliver i ev w = w.
Proof.
  unfold deliver. intros -> Hnone.
  destruct (task_status t); [| done].
  destruct (task_issued t) as [r |]; [| done].
  cbn in Hnone. by rewrite Hnone.
Qed.

Lemma deliver_settles i ev w t r o :
  tasks w !! i = Some t → task_status t = Suspended →
  task_issued t = Some r → handle r ev = Some o →
  deliver i ev w
  = set_tasks
      (<[i := {| task_url := task_url t; task_issued := Some r;
                 task_status := Returned o (Normal tt) |}]> (tasks w))
      (set_preFetched
         (match o with
          | Fulfilled => preFetched_put (task_url t) (preFetched w)
          | Rejected => preFetched w
          end) w).
Proof.
  unfold deliver. intros -> -> -> ->. by rewrite settle_eq.
Qed.

(** [deliver] either leaves the world alone or settles one suspended task. *)
Lemma deliver_cases i ev w :
  deliver i ev w = w
  ∨ ∃ t r o,
      tasks w !! i = Some t ∧ task_status t = Suspended ∧
      task_issued t = Some r ∧ handle r ev = Some o ∧
      deliver i ev w
      = set_tasks
          (<[i := {| task_url := task_url t; task_issued := Some r;
                     task_status := Returned o (Normal tt) |}]> (tasks w))
          (set_preFetched
             (match o with
              | Fulfilled => preFetched_put (task_url t) (preFetched w)
              | Rejected => preFetched w
              end) w).
Proof.
  destruct (tasks w !! i) as [t |] eqn:Ht; [| left; by apply deliver_no_task].
  destruct (task_status t) as [| o c] eqn:Hst;
    [| left; by eapply deliver_returned].
  destruct (task_issued t) as [r |] eqn:Hr;
    [| left; eapply deliver_unhandled; [done | by rewrite Hr]].
  destruct (handle r ev) as [o |] eqn:Hh;
    [| left; eapply deliver_unhandled; [done | by rewrite Hr]].
  right. exists t, r, o. repeat split; try done. by apply deliver_settles.
Qed.

(** The first call followed by an event on its own request. *)
Lemma call_then_event env url p ev w :
  is_prefetched w url = false → network_gate env = false →
  deliver (length (tasks w)) ev (prefetcher env url p w)
  = match promise (chosen env url p w),
          issued (chosen env url p w) ≫= (λ r, handle r ev) with
    | Pending, Some o =>
        set_tasks
          (tasks w ++ [{| task_url := url;
                          task_issued := issued (chosen env url p w);
                          task_status := Returned o (Normal tt) |}])
          (set_preFetched
             (match o with
              | Fulfilled => preFetched_put url (preFetched w)
              | Rejected => preFetched w
              end)
             (record_call url p w))
    | _, _ => prefetcher env url p w
    end.
Proof.
  intros Hpf Hgate. rewrite (prefetcher_invokes _ _ _ _ Hpf Hgate).
  set (inv := chosen env url p w).
  set (t := {| task_url := url; task_issued := issued inv;
               task_status := match promise inv with
                              | Pending => Suspended
                              | Settled o => Returned o (Normal tt)
                              end |}).
  assert (Hlook : tasks (set_tasks (tasks w ++ [t]) (record_call url p w))
                    !! length (tasks w) = Some t).
  { cbn. by apply list_lookup_middle. }
  destruct (promise inv) as [| o] eqn:Hprom.
  - destruct (issued inv) as [r |] eqn:Hiss; cbn.
    + destruct (handle r ev) as [o |] eqn:Hh.
      * erewrite deliver_settles; [| exact Hlook | done | by subst t | done].
        subst t. cbn. rewrite insert_app_r_alt by done.
        by rewrite Nat.sub_diag.
      * eapply deliver_unhandled; [exact Hlook |]. subst t. cbn. done.
    + eapply deliver_unhandled; [exact Hlook |]. by subst t.
  - eapply deliver_returned; [exact Hlook | by subst t].
Qed.

(** ** Counting invocations *)

Lemma invocations_snoc url t ts w :
  invocations url (set_tasks (ts ++ [t]) w)
  = length (filter (λ t, task_url t = url) ts)
    + (if decide (task_url t = url) then 1 else 0).
Proof.
  unfold invocations. cbn. rewrite filter_app, length_app. f_equal.
  rewrite filter_cons, filter_nil. by destruct (decide (task_url t = url)).
Qed.

(** ** The outcome of the call that made a task *)

(** Whatever the first call and the event did, if the task of that call has
    returned, this is the world. *)
Lemma returned_after_call env url p ev w o c :
  status_of (length (tasks w)) (deliver (length (tasks w)) ev (prefetcher env url p w))
  = Some (Returned o c) →
  c = Normal tt
  ∧ is_prefetched w url = false
  ∧ deliver (length (tasks w)) ev (prefetcher env url p w)
    = set_tasks
        (tasks w ++ [{| task_url := url;
                        task_issued := issued (chosen env url p w);
                        task_status := Returned o (Normal tt) |}])
        (set_preFetched
           (match o with
            | Fulfilled => preFetched_put url (preFetched w)
            | Rejected => preFetched w
            end)
           (record_call url p w)).
Proof.
  assert (Hnone : ∀ ts : list Task, task_status <$> ts !! length ts = None).
  { intros ts. by rewrite lookup_ge_None_2. }
  destruct (is_prefetched w url) eqn:Hpf.
  { rewrite prefetcher_deduped by done. unfold status_of.
    rewrite deliver_no_task by (cbn; by apply lookup_ge_None_2).
    cbn. by rewrite Hnone. }
  destruct (network_gate env) eqn:Hgate.
  { rewrite prefetcher_gated by done. unfold status_of.
    rewrite deliver_no_task by (cbn; by apply lookup_ge_None_2).
    cbn. by rewrite Hnone. }
  rewrite call_then_event by done.
  destruct (chosen_promise env url p w) as [Hprom | Hprom]; rewrite Hprom.
  - destruct (issued (chosen env url p w) ≫= λ r, handle r ev) as [o' |] eqn:Hh.
    + unfold status_of. cbn. rewrite list_lookup_middle by done. cbn.
      intros [= <- <-]. done.
    + rewrite prefetcher_invokes by done. unfold status_of. cbn.
      rewrite list_lookup_middle by done. cbn. by rewrite Hprom.
  - rewrite prefetcher_invokes by done. unfold status_of. cbn.
    rewrite list_lookup_middle by done. cbn. rewrite Hprom.
    intros [= <- <-]. done.
Qed.

(** ** C1 *)

(** C1. Dedup: when a first call [prefetcher(url, p)] has completed with a
    fulfilled strategy promise, a second call [prefetcher(url, p')] returns
    at the first guard: it does nothing but appear in the call trace, and
    the two calls together made exactly one strategy invocation for [url]. *)
Theorem dedup_second_dispatch_is_noop env env' url p p' ev w c :
  let i := length (tasks w) in
  let w1 := deliver i ev (prefetcher env url p w) in
  status_of i w1 = Some (Returned Fulfilled c) →
  prefetcher env' url p' w1 = record_call url p' w1
  ∧ invocations url (prefetcher env' url p' w1) = S (invocations url w).
Proof.
  intros i w1 Hst. subst i w1.
  apply returned_after_call in Hst as (_ & Hpf & Heq).
  assert (Hnow : is_prefetched
            (deliver (length (tasks w)) ev (prefetcher env url p w)) url = true).
  { rewrite Heq. unfold is_prefetched. cbn. by apply preFetched_put_get. }
  rewrite prefetcher_deduped by done. split; [done |].
  rewrite Heq. unfold invocations. cbn.
  rewrite filter_app, length_app, filter_cons, filter_nil. cbn.
  rewrite decide_True by done. cbn. lia.
Qed.

(** ** C2 *)

(** C2. Gating: when [navigator] has a [connection] whose effective type
    contains "2g" or whose [saveData] is set, a call of [prefetcher] does
    nothing but appear in the call trace: no strategy is invoked and
    [preFetched] is unchanged, so the url is as eligible as before. *)
Theorem gating_skips_dispatch env url p w connection :
  navigator_connection env = Some connection →
  includes "2g" (default "" (effectiveType connection)) = true
  ∨ saveData connection = true →
  prefetcher env url p w = record_call url p w
  ∧ tasks (prefetcher env url p w) = tasks w
  ∧ invocations url (prefetcher env url p w) = invocations url w
  ∧ preFetched (prefetcher env url p w) = preFetched w
  ∧ is_prefetched (prefetcher env url p w) url = is_prefetched w url.
Proof.
  intros Hconn Hcond.
  assert (Hgate : network_gate env = true).
  { unfold network_gate. rewrite Hconn.
    destruct Hcond as [-> | ->]; [done |].
    by destruct (includes _ _). }
  by rewrite prefetcher_gated.
Qed.

(** ** C3 *)

(** C3. Failure handling: once the call that made a task has returned, its
    own promise is fulfilled whatever the strategy's outcome (nothing is
    thrown to the caller); with a rejected strategy promise the url is not
    marked and a later ungated call invokes a strategy for it again; with a
    fulfilled one the url is marked. *)
Theorem failure_swallowed_success_recorded env url p ev w o c :
  let i := length (tasks w) in
  let w1 := deliver i ev (prefetcher env url p w) in
  status_of i w1 = Some (Returned o c) →
  c = Normal tt
  ∧ (∀ pf, prefetcher_resume url Rejected pf = Normal pf)
  ∧ match o with
    | Rejected =>
        is_prefetched w1 url = false
        ∧ preFetched w1 = preFetched w
        ∧ ∀ env' p', network_gate env' = false →
            invocations url (prefetcher env' url p' w1) = S (invocations url w1)
    | Fulfilled => is_prefetched w1 url = true
    end.
Proof.
  intros i w1 Hst. subst i w1.
  apply returned_after_call in Hst as (-> & Hpf & Heq).
  split; [done |]. split; [done |].
  rewrite Heq. destruct o.
  - unfold is_prefetched. cbn. by apply preFetched_put_get.
  - split; [done |]. split; [done |].
    intros env' p' Hgate.
    rewrite prefetcher_invokes; [| done | done].
    rewrite invocations_snoc. cbn. rewrite decide_True by done.
    unfold invocations. cbn. lia.
Qed.

(** ** [preFetched] only grows *)

Lemma foldl_invariant {A B} (P : A → Prop) (f : A → B → A) (l : list B) (a : A) :
  (∀ a b, P a → P (f a b)) → P a → P (foldl f a l).
Proof.
  intros Hstep. revert a. induction l as [| b l IH]; intros a Ha; cbn; [done |].
  apply IH. by apply Hstep.
Qed.

Lemma preFetched_put_subseteq url pf : pf ⊆ preFetched_put url pf.
Proof.
  unfold preFetched_put. destruct (String.eqb url "__proto__"); set_solver.
Qed.

Lemma preFetched_get_subseteq pf pf' url :
  pf ⊆ pf' → preFetched_get pf url = true → preFetched_get pf' url = true.
Proof.
  unfold preFetched_get. intros Hsub Hget.
  apply orb_true_iff in Hget as [Hown | Hproto]; apply orb_true_iff; [left | by right].
  apply bool_decide_eq_true. apply bool_decide_eq_true in Hown. set_solver.
Qed.

Lemma deliver_preFetched_grows i ev w : preFetched w ⊆ preFetched (deliver i ev w).
Proof.
  destruct (deliver_cases i ev w) as [-> | (t & r & o & _ & _ & _ & _ & ->)];
    [done |].
  cbn. destruct o; [apply preFetched_put_subseteq | done].
Qed.

Lemma call_loader_preFetched env l w : preFetched (call_loader env l w) = preFetched w.
Proof. unfold call_loader. by rewrite prefetcher_preFetched. Qed.

Lemma on_entry_preFetched env w entry : preFetched (on_entry env w entry) = preFetched w.
Proof.
  unfold on_entry. destruct (loaderFunctions w !! href (target entry));
    [apply call_loader_preFetched | done].
Qed.

Lemma observer_callback_preFetched env entries w :
  preFetched (observer_callback env entries w) = preFetched w.
Proof.
  unfold observer_callback.
  apply (foldl_invariant (λ w', preFetched w' = preFetched w)); [| done].
  intros w' entry <-. apply on_entry_preFetched.
Qed.

Lemma scheduling_pass_preFetched env options w :
  preFetched (scheduling_pass env options w) = preFetched w.
Proof.
  unfold scheduling_pass. destruct (urls options) as [us |].
  - apply (foldl_invariant (λ w', preFetched w' = preFetched w)); [| done].
    intros w' url <-. apply prefetcher_preFetched.
  - apply (foldl_invariant (λ w', preFetched w' = preFetched w)); [done |].
    by apply (foldl_invariant (λ w', preFetched w' = preFetched w)).
Qed.

Lemma step_preFetched_grows w ea : preFetched w ⊆ preFetched (step w ea).
Proof.
  destruct ea as [env [url p | i ev | options | entries]]; unfold step; cbn.
  - by rewrite prefetcher_preFetched.
  - apply deliver_preFetched_grows.
  - by rewrite scheduling_pass_preFetched.
  - by rewrite observer_callback_preFetched.
Qed.

Lemma run_preFetched_grows w trace : preFetched w ⊆ preFetched (run w trace).
Proof.
  unfold run.
  apply (foldl_invariant (λ w', preFetched w ⊆ preFetched w')); [| done].
  intros w' ea Hsub. etrans; [exact Hsub | apply step_preFetched_grows].
Qed.

Lemma run_is_prefetched w trace url :
  is_prefetched w url = true → is_prefetched (run w trace) url = true.
Proof. apply preFetched_get_subseteq, run_preFetched_grows. Qed.

(** ** C4 *)

(** C4, as stated, fails: a url handed to the XHR strategy is not in
    [preFetched] while the request is in flight, and not after the request
    ended with status 404 either. *)
Lemma handed_over_but_not_marked :
  let w0 := init legacy_browser in
  let w1 := prefetcher legacy_browser "/a" (Some "low") w0 in
  let w2 := deliver 0 (XhrLoad 404) w1 in
  invocations "/a" w1 = 1
  ∧ request_of 0 w1 = Some (XhrSend (xhr_request "/a"))
  ∧ is_prefetched w1 "/a" = false
  ∧ status_of 0 w2 = Some (Returned Rejected (Normal tt))
  ∧ is_prefetched w2 "/a" = false.
Proof. vm_compute. done. Qed.

(** C4, amended. A url handed to a strategy is not marked by the hand-over
    itself; after an event on its request it is marked exactly when the
    strategy's promise was fulfilled; and over any run of the page the own
    properties of [preFetched] only grow, so a marked url stays marked. *)
Theorem marked_exactly_on_success env url p ev w :
  is_prefetched w url = false → network_gate env = false →
  let i := length (tasks w) in
  let w0 := prefetcher env url p w in
  let w1 := deliver i ev w0 in
  invocations url w0 = S (invocations url w)
  ∧ is_prefetched w0 url = false
  ∧ (is_prefetched w1 url = true
     ↔ status_of i w1 = Some (Returned Fulfilled (Normal tt)))
  ∧ (∀ w' trace, preFetched w' ⊆ preFetched (run w' trace))
  ∧ (∀ w' trace u, is_prefetched w' u = true → is_prefetched (run w' trace) u = true).
Proof.
  intros Hpf Hgate i w0 w1. subst i w0 w1.
  split.
  { rewrite prefetcher_invokes by done. rewrite invocations_snoc. cbn.
    rewrite decide_True by done. unfold invocations. lia. }
  split.
  { unfold is_prefetched. by rewrite prefetcher_preFetched. }
  split; [| split; [apply run_preFetched_grows | apply run_is_prefetched]].
  split.
  - intros Hmarked.
    rewrite call_then_event in * by done.
    destruct (promise (chosen env url p w)) eqn:Hprom.
    + destruct (issued (chosen env url p w) ≫= λ r, handle r ev) as [[] |] eqn:Hh.
      * unfold status_of. cbn. by rewrite list_lookup_middle.
      * unfold is_prefetched in *. cbn in Hmarked. congruence.
      * unfold is_prefetched in *.
        rewrite prefetcher_preFetched in Hmarked. congruence.
    + unfold is_prefetched in *.
      rewrite prefetcher_preFetched in Hmarked. congruence.
  - intros Hst. apply returned_after_call in Hst as (_ & _ & ->).
    unfold is_prefetched. cbn. by apply preFetched_put_get.
Qed.

(** ** C5 *)

(** What the XHR strategy does get right: a GET with credentials, whose
    promise is pending until the load event and then fulfilled exactly for
    status 200. *)
Lemma xhr_load_contract url status :
  xhrPrefetchStrategy url
  = {| issued := Some (XhrSend (xhr_request url)); promise := Pending |}
  ∧ xhr_method (xhr_request url) = "GET"
  ∧ xhr_url (xhr_request url) = url
  ∧ xhr_withCredentials (xhr_request url) = true
  ∧ handle (XhrSend (xhr_request url)) (XhrLoad status)
    = Some (if decide (status = 200) then Fulfilled else Rejected).
Proof.
  repeat split. cbn. destruct (Nat.eqb_spec status 200); by case_decide.
Qed.

(** C5. The XHR strategy attaches a load handler only, so the error event
    of a transport-level failure settles nothing: the promise is neither
    fulfilled nor rejected.  For the url "/a" in a browser without
    [relList]: the call of [prefetcher] that awaits the request stays
    suspended and the world is unchanged, where the error event of a link
    element rejects. *)
Theorem xhr_error_event_settles_nothing url :
  xhr_onerror (xhr_request url) = None
  ∧ handle (XhrSend (xhr_request url)) XhrError = None
  ∧ (∀ parent, handle (AppendLink parent
                         {| link_rel := "prefetch"; link_href := url;
                            link_onload := Some resolve;
                            link_onerror := Some reject |}) LinkError
               = Some Rejected)
  ∧ let w1 := prefetcher legacy_browser "/a" (Some "low") (init legacy_browser) in
    request_of 0 w1 = Some (XhrSend (xhr_request "/a"))
    ∧ deliver 0 XhrError w1 = w1
    ∧ status_of 0 (deliver 0 XhrError w1) = Some Suspended.
Proof. repeat split. Qed.

(** ** Fields that calls and events leave alone *)

Lemma deliver_loaderFunctions i ev w :
  loaderFunctions (deliver i ev w) = loaderFunctions w.
Proof.
  by destruct (deliver_cases i ev w) as [-> | (t & r & o & _ & _ & _ & _ & ->)].
Qed.

Lemma deliver_observed i ev w : observed (deliver i ev w) = observed w.
Proof.
  by destruct (deliver_cases i ev w) as [-> | (t & r & o & _ & _ & _ & _ & ->)].
Qed.

Lemma deliver_dispatched i ev w : dispatched (deliver i ev w) = dispatched w.
Proof.
  by destruct (deliver_cases i ev w) as [-> | (t & r & o & _ & _ & _ & _ & ->)].
Qed.

Lemma deliver_strategy i ev w :
  supportedPrefetchStrategy (deliver i ev w) = supportedPrefetchStrategy w.
Proof.
  by destruct (deliver_cases i ev w) as [-> | (t & r & o & _ & _ & _ & _ & ->)].
Qed.

Lemma on_entry_strategy env w entry :
  supportedPrefetchStrategy (on_entry env w entry) = supportedPrefetchStrategy w.
Proof.
  unfold on_entry, call_loader.
  destruct (loaderFunctions w !! href (target entry)); [| done].
  by rewrite prefetcher_strategy.
Qed.

Lemma step_strategy w ea :
  supportedPrefetchStrategy (step w ea) = supportedPrefetchStrategy w.
Proof.
  destruct ea as [env [url p | i ev | options | entries]]; unfold step; cbn.
  - apply prefetcher_strategy.
  - apply deliver_strategy.
  - unfold scheduling_pass. destruct (urls options) as [us |].
    + apply (foldl_invariant
               (λ w', supportedPrefetchStrategy w' = supportedPrefetchStrategy w));
        [| done].
      intros w' url <-. apply prefetcher_strategy.
    + apply (foldl_invariant
               (λ w', supportedPrefetchStrategy w' = supportedPrefetchStrategy w));
        [done |].
      by apply (foldl_invariant
                  (λ w', supportedPrefetchStrategy w' = supportedPrefetchStrategy w)).
  - unfold observer_callback.
    apply (foldl_invariant
             (λ w', supportedPrefetchStrategy w' = supportedPrefetchStrategy w));
      [| done].
    intros w' entry <-. apply on_entry_strategy.
Qed.

(** The strategy chosen when the module was loaded stays the default. *)
Lemma run_strategy env0 trace :
  supportedPrefetchStrategy (run (init env0) trace) = select_strategy env0.
Proof.
  unfold run.
  apply (foldl_invariant (λ w', supportedPrefetchStrategy w' = select_strategy env0));
    [| done].
  intros w' ea <-. apply step_strategy.
Qed.

(** ** C6 *)

(** C6. Strategy selection, in any state the page can reach after loading
    in [env0]: a call that passes both guards invokes exactly one strategy.
    With priority [high] that is [fetch] with credentials included whenever
    [self.fetch] exists, whatever [support] answered, and the XHR strategy
    only when it does not exist; with any other priority it is the link
    strategy when [support(`prefetch`)] was truthy at load time and the XHR
    strategy when it was not. *)
Theorem strategy_selection env0 trace env url p :
  let w := run (init env0) trace in
  is_prefetched w url = false → network_gate env = false →
  let inv :=
    if is_high p then
      if self_fetch env
      then {| issued := Some (FetchCall url "include"); promise := Pending |}
      else xhrPrefetchStrategy url
    else
      if truthy (support env0 "prefetch")
      then linkPrefetchStrategy env url
      else xhrPrefetchStrategy url in
  tasks (prefetcher env url p w)
  = tasks w ++ [{| task_url := url; task_issued := issued inv;
                   task_status := match promise inv with
                                  | Pending => Suspended
                                  | Settled o => Returned o (Normal tt)
                                  end |}]
  ∧ request_of (length (tasks w)) (prefetcher env url p w) = issued inv.
Proof.
  intros w Hpf Hgate inv.
  assert (Hinv : chosen env url p w = inv).
  { subst inv. unfold chosen, highPriFetchStrategy.
    destruct (is_high p).
    - by destruct (self_fetch env).
    - subst w. rewrite run_strategy. unfold select_strategy.
      by destruct (truthy (support env0 "prefetch")). }
  rewrite prefetcher_invokes by done. rewrite Hinv. cbn. split; [done |].
  unfold request_of. cbn. by rewrite list_lookup_middle.
Qed.

(** ** The registry of loader functions *)

Lemma dispatches_prefetcher u env url p w :
  dispatches u (prefetcher env url p w)
  = dispatches u w + (if decide (url = u) then 1 else 0).
Proof.
  unfold dispatches. rewrite prefetcher_dispatched.
  rewrite filter_app, length_app, filter_cons, filter_nil. cbn.
  by destruct (decide (url = u)).
Qed.

Lemma registered_delete u url w :
  registered u (set_loaderFunctions (delete url (loaderFunctions w)) w)
  = if decide (url = u) then 0 else registered u w.
Proof.
  unfold registered. cbn. destruct (decide (url = u)) as [-> | Hne].
  - rewrite lookup_delete_eq. by rewrite decide_False by (by intros [? ?]).
  - by rewrite lookup_delete_ne.
Qed.

Lemma registered_prefetcher u env url p w :
  registered u (prefetcher env url p w) = registered u w.
Proof. unfold registered. by rewrite prefetcher_loaderFunctions. Qed.

Lemma registry_wf_prefetcher env url p w :
  registry_wf w → registry_wf (prefetcher env url p w).
Proof. unfold registry_wf. by rewrite prefetcher_loaderFunctions. Qed.

Lemma registry_wf_deliver i ev w : registry_wf w → registry_wf (deliver i ev w).
Proof. unfold registry_wf. by rewrite deliver_loaderFunctions. Qed.

Lemma registry_wf_call_loader env l w :
  registry_wf w → registry_wf (call_loader env l w).
Proof.
  intros Hwf. unfold call_loader. apply registry_wf_prefetcher.
  intros url l'. cbn. intros Hl'. apply lookup_delete_Some in Hl' as [_ Hl'].
  by apply Hwf.
Qed.

Lemma registry_wf_on_entry env w entry :
  registry_wf w → registry_wf (on_entry env w entry).
Proof.
  intros Hwf. unfold on_entry.
  destruct (loaderFunctions w !! href (target entry));
    [by apply registry_wf_call_loader | done].
Qed.

Lemma registry_wf_register p w url : registry_wf w → registry_wf (register p w url).
Proof.
  intros Hwf u l. unfold register. cbn. intros Hl.
  apply lookup_insert_Some in Hl as [[<- <-] | [_ Hl]]; [done | by apply Hwf].
Qed.

Lemma registry_wf_step w ea : registry_wf w → registry_wf (step w ea).
Proof.
  intros Hwf.
  destruct ea as [env [url p | i ev | options | entries]]; unfold step; cbn.
  - by apply registry_wf_prefetcher.
  - by apply registry_wf_deliver.
  - unfold scheduling_pass. destruct (urls options) as [us |].
    + apply (foldl_invariant registry_wf); [| done].
      intros w' url ?. by apply registry_wf_prefetcher.
    + apply (foldl_invariant registry_wf).
      { intros w' url ?. by apply registry_wf_register. }
      by apply (foldl_invariant registry_wf).
  - unfold observer_callback. apply (foldl_invariant registry_wf); [| done].
    intros w' entry ?. by apply registry_wf_on_entry.
Qed.

Lemma registry_wf_run env0 trace : registry_wf (run (init env0) trace).
Proof.
  unfold run. apply (foldl_invariant registry_wf).
  - intros w ea. apply registry_wf_step.
  - intros url l. cbn. by rewrite lookup_empty.
Qed.

(** Firing moves one unit from [registered] to [dispatches]. *)
Lemma on_entry_balance u env w entry :
  registry_wf w →
  dispatches u (on_entry env w entry) + registered u (on_entry env w entry)
  = dispatches u w + registered u w
  ∧ (dispatches u w ≤ dispatches u (on_entry env w entry))%nat.
Proof.
  intros Hwf. unfold on_entry.
  destruct (loaderFunctions w !! href (target entry)) as [l |] eqn:Hl; [| done].
  pose proof (Hwf _ _ Hl) as Hurl. unfold call_loader.
  rewrite dispatches_prefetcher, registered_prefetcher, registered_delete.
  rewrite Hurl.
  change (dispatches u (set_loaderFunctions _ w)) with (dispatches u w).
  destruct (decide (href (target entry) = u)) as [<- | Hne]; [| lia].
  unfold registered. rewrite Hl. rewrite decide_True by done. lia.
Qed.

Lemma observer_callback_balance u env entries w :
  registry_wf w → balanced u w (observer_callback env entries w).
Proof.
  intros Hwf. unfold observer_callback.
  apply (foldl_invariant (balanced u w)); [| by repeat split].
  intros w' entry (Hwf' & Hbal & Hle).
  destruct (on_entry_balance u env w' entry Hwf') as [Hbal' Hle'].
  split; [by apply registry_wf_on_entry |]. split; lia.
Qed.

Lemma environment_step_balance u w env a :
  environment_action a = true → registry_wf w → balanced u w (step w (env, a)).
Proof.
  intros Ha Hwf. destruct a as [url p | i ev | options | entries]; try done.
  - unfold step. cbn. split; [by apply registry_wf_deliver |].
    unfold dispatches, registered.
    by rewrite deliver_dispatched, deliver_loaderFunctions.
  - by apply observer_callback_balance.
Qed.

Lemma environment_run_balance u w trace :
  registry_wf w →
  Forall (λ ea, environment_action ea.2 = true) trace →
  balanced u w (run w trace).
Proof.
  intros Hwf Htrace. revert w Hwf.
  induction Htrace as [| [env a] trace Ha _ IH]; intros w Hwf; [by repeat split |].
  cbn in Ha. unfold run in *. cbn [foldl].
  destruct (environment_step_balance u w env a Ha Hwf) as (Hwf1 & Hbal1 & Hle1).
  destruct (IH _ Hwf1) as (Hwf2 & Hbal2 & Hle2).
  split; [done |]. split; lia.
Qed.

(** A batch whose intersecting targets are all unregistered changes nothing. *)
Lemma observer_callback_unregistered env entries w :
  Forall (λ entry, isIntersecting entry = true →
                   loaderFunctions w !! href (target entry) = None) entries →
  observer_callback env entries w = w.
Proof.
  unfold observer_callback. induction 1 as [| entry entries Hentry _ IH]; [done |].
  rewrite filter_cons. case_decide as Hint; [| done].
  cbn. unfold on_entry at 2. by rewrite (Hentry Hint).
Qed.

(** ** What a pass over a scope registers *)

Lemma foldl_register_loaderFunctions p us w :
  loaderFunctions (foldl (register p) w us)
  = foldl (λ m url, <[url := {| loader_url := url; loader_priority := p |}]> m)
          (loaderFunctions w) us.
Proof. revert w. induction us as [| u us IH]; intros w; cbn; [done |]. by rewrite IH. Qed.

Lemma foldl_observe_loaderFunctions (links : list Anchor) w :
  loaderFunctions (foldl (λ w link, set_observed (observed w ++ [link]) w) w links)
  = loaderFunctions w.
Proof.
  by apply (foldl_invariant (λ w', loaderFunctions w' = loaderFunctions w)).
Qed.

Lemma scheduling_pass_registry env options w :
  urls options = None →
  loaderFunctions (scheduling_pass env options w)
  = foldl (λ m url, <[url := {| loader_url := url;
                                loader_priority := priority options |}]> m)
          (loaderFunctions w) (href <$> el options).
Proof.
  intros Hurls. unfold scheduling_pass. rewrite Hurls.
  by rewrite foldl_register_loaderFunctions, foldl_observe_loaderFunctions.
Qed.

Lemma dom_foldl_insert p (us : list string) (m : gmap string Loader) :
  dom (foldl (λ m url, <[url := {| loader_url := url; loader_priority := p |}]> m) m us)
  = dom m ∪ list_to_set us.
Proof.
  revert m. induction us as [| u us IH]; intros m; cbn.
  - by rewrite union_empty_r_L.
  - rewrite IH, dom_insert_L. by rewrite (union_comm_L {[u]}), <- union_assoc_L.
Qed.

(** ** C7 *)

(** C7. Registry consumption, in any state [w] the page can reach.
    (1) A pass over a scope registers one entry per url: the keys afterwards
    are the old keys and the hrefs of the scope, and two anchors with the
    same href leave the registry that one of them leaves.
    (2) A trigger deletes its own entry and only then calls the dispatcher,
    once.
    (3) Over any sequence of intersection notifications and network events,
    the dispatcher is called for a url at most once more if the url is
    registered and not at all if it is not.
    (4) A notification whose intersecting targets are all unregistered
    leaves the world as it is. *)
Theorem registry_entry_fires_once env0 pre :
  let w := run (init env0) pre in
  (∀ env options,
     urls options = None →
     dom (loaderFunctions (scheduling_pass env options w))
     = dom (loaderFunctions w) ∪ list_to_set (href <$> el options))
  ∧ (∀ env options options' a b rest,
       urls options = None → urls options' = None →
       priority options' = priority options →
       el options = a :: b :: rest → el options' = b :: rest →
       href a = href b →
       loaderFunctions (scheduling_pass env options w)
       = loaderFunctions (scheduling_pass env options' w))
  ∧ (∀ env entry l,
       loaderFunctions w !! href (target entry) = Some l →
       on_entry env w entry
       = prefetcher env (href (target entry)) (loader_priority l)
           (set_loaderFunctions
              (delete (href (target entry)) (loaderFunctions w)) w)
       ∧ loaderFunctions (on_entry env w entry) !! href (target entry) = None
       ∧ dispatches (href (target entry)) (on_entry env w entry)
         = S (dispatches (href (target entry)) w))
  ∧ (∀ u trace,
       Forall (λ ea, environment_action ea.2 = true) trace →
       (dispatches u (run w trace) ≤ dispatches u w + registered u w)%nat
       ∧ (loaderFunctions w !! u = None →
          dispatches u (run w trace) = dispatches u w))
  ∧ (∀ env entries,
       Forall (λ entry, isIntersecting entry = true →
                        loaderFunctions w !! href (target entry) = None) entries →
       observer_callback env entries w = w).
Proof.
  intros w. assert (Hwf : registry_wf w) by apply registry_wf_run.
  split; [| split; [| split; [| split]]].
  - intros env options Hurls.
    by rewrite scheduling_pass_registry, dom_foldl_insert.
  - intros env options options' a b rest Hu Hu' Hp Hel Hel' Hab.
    rewrite !scheduling_pass_registry by done.
    rewrite Hel, Hel', Hp. cbn. rewrite Hab. by rewrite insert_insert_eq.
  - intros env entry l Hl. pose proof (Hwf _ _ Hl) as Hurl.
    unfold on_entry. rewrite Hl. unfold call_loader. rewrite Hurl.
    split; [done |]. split.
    + rewrite prefetcher_loaderFunctions. cbn. apply lookup_delete_eq.
    + rewrite dispatches_prefetcher. rewrite decide_True by done.
      change (dispatches _ (set_loaderFunctions _ w))
        with (dispatches (href (target entry)) w). lia.
  - intros u trace Htrace.
    destruct (environment_run_balance u w trace Hwf Htrace) as (_ & Hbal & Hle).
    split; [lia |]. intros Hnone.
    assert (registered u w = 0) as Hzero.
    { unfold registered. rewrite Hnone. by rewrite decide_False by (by intros [? ?]). }
    lia.
  - intros env entries. apply observer_callback_unregistered.
Qed.

(** ** C8 *)

Lemma foldl_prefetcher_fields env p us w :
  dispatched (foldl (λ w url, prefetcher env url p w) w us)
  = dispatched w ++ ((λ url, (url, p)) <$> us)
  ∧ observed (foldl (λ w url, prefetcher env url p w) w us) = observed w
  ∧ loaderFunctions (foldl (λ w url, prefetcher env url p w) w us)
    = loaderFunctions w.
Proof.
  revert w. induction us as [| u us IH]; intros w; cbn.
  - by rewrite app_nil_r.
  - destruct (IH (prefetcher env u p w)) as (-> & -> & ->).
    rewrite prefetcher_dispatched, prefetcher_observed, prefetcher_loaderFunctions.
    by rewrite <- app_assoc.
Qed.

(** C8. Explicit url list: when the options carry [urls], the scheduling
    pass calls [prefetcher] once for each entry of the list, in order, with
    the configured priority; it observes no element and registers no
    loader; and the scope plays no part, since any other [el] gives the same
    world. *)
Theorem explicit_urls_bypass_observation env options us w :
  urls options = Some us →
  dispatched (scheduling_pass env options w)
  = dispatched w ++ ((λ url, (url, priority options)) <$> us)
  ∧ observed (scheduling_pass env options w) = observed w
  ∧ loaderFunctions (scheduling_pass env options w) = loaderFunctions w
  ∧ ∀ scope,
      scheduling_pass env
        {| priority := priority options; timeout := timeout options;
           urls := Some us; el := scope |} w
      = scheduling_pass env options w.
Proof.
  intros Hurls. unfold scheduling_pass. rewrite Hurls. cbn.
  destruct (foldl_prefetcher_fields env (priority options) us w) as (-> & -> & ->).
  done.
Qed.

(** ** C9 *)

(** C9, as stated, fails: in a document with neither a head nor an element
    named [script] the executor of the link strategy does throw, but the
    strategy returns a rejected promise and the call of [prefetcher] ends
    with its own promise fulfilled; nothing is thrown out of either. *)
Lemma missing_container_is_swallowed :
  let w1 := prefetcher bare_browser "/a" (Some "low") (init bare_browser) in
  supportedPrefetchStrategy (init bare_browser) = LinkPrefetch
  ∧ link_executor bare_browser "/a" = Throw TypeError
  ∧ linkPrefetchStrategy bare_browser "/a"
    = {| issued := None; promise := Settled Rejected |}
  ∧ status_of 0 w1 = Some (Returned Rejected (Normal tt))
  ∧ ¬ (∃ o e, status_of 0 w1 = Some (Returned o (Throw e))).
Proof.
  vm_compute. repeat split. intros (o & e & Heq). discriminate Heq.
Qed.

(** C9, amended. When the link strategy runs in a document with neither a
    head nor an element named [script], the fault raised inside the
    executor rejects the strategy's promise, and [prefetcher] swallows that
    rejection like any other failure: the call's own promise is fulfilled,
    no request is issued and the url is not marked. *)
Theorem missing_container_rejects_and_is_swallowed env doc url p w :
  document env = Some doc →
  has_head doc = false → has_named_script doc = false →
  supportedPrefetchStrategy w = LinkPrefetch → is_high p = false →
  is_prefetched w url = false → network_gate env = false →
  let w1 := prefetcher env url p w in
  link_executor env url = Throw TypeError
  ∧ linkPrefetchStrategy env url = {| issued := None; promise := Settled Rejected |}
  ∧ tasks w1 = tasks w ++ [{| task_url := url; task_issued := None;
                              task_status := Returned Rejected (Normal tt) |}]
  ∧ status_of (length (tasks w)) w1 = Some (Returned Rejected (Normal tt))
  ∧ preFetched w1 = preFetched w
  ∧ is_prefetched w1 url = false.
Proof.
  intros Hdoc Hhead Hscript Hlink Hlow Hpf Hgate w1. subst w1.
  assert (Hexec : link_executor env url = Throw TypeError).
  { unfold link_executor. by rewrite Hdoc, Hhead, Hscript. }
  assert (Hstrat : linkPrefetchStrategy env url
                   = {| issued := None; promise := Settled Rejected |}).
  { unfold linkPrefetchStrategy. by rewrite Hexec. }
  assert (Hchosen : chosen env url p w
                    = {| issued := None; promise := Settled Rejected |}).
  { unfold chosen. by rewrite Hlow, Hlink. }
  rewrite prefetcher_invokes by done. rewrite Hchosen. cbn.
  repeat split; try done.
  unfold status_of. cbn. by rewrite list_lookup_middle.
Qed.

(** ** C10 *)

(** C10. With [self.fetch] present, a call with priority [high] that passes
    the guards issues [fetch(url, {credentials: `include`})]; whatever the
    status of the response that arrives, 404 and 500 included, the url is
    marked, and every later call for it, after anything else the page does,
    returns at the first guard.  The XHR strategy, in contrast, is fulfilled
    by a load event only for status 200. *)
Theorem high_priority_marks_on_any_response env url p status w :
  self_fetch env = true → is_high p = true →
  is_prefetched w url = false → network_gate env = false →
  let i := length (tasks w) in
  let w1 := deliver i (FetchResponse status) (prefetcher env url p w) in
  request_of i (prefetcher env url p w) = Some (FetchCall url "include")
  ∧ status_of i w1 = Some (Returned Fulfilled (Normal tt))
  ∧ is_prefetched w1 url = true
  ∧ (∀ trace env' p',
       prefetcher env' url p' (run w1 trace) = record_call url p' (run w1 trace))
  ∧ (handle (XhrSend (xhr_request url)) (XhrLoad status) = Some Fulfilled
     ↔ status = 200).
Proof.
  intros Hfetch Hhigh Hpf Hgate i w1.
  assert (Hchosen : chosen env url p w
                    = {| issued := Some (FetchCall url "include"); promise := Pending |}).
  { unfold chosen, highPriFetchStrategy. by rewrite Hhigh, Hfetch. }
  assert (Hw1 : is_prefetched w1 url = true).
  { subst w1 i. rewrite call_then_event by done. rewrite Hchosen. cbn.
    unfold is_prefetched. cbn. by apply preFetched_put_get. }
  split.
  { rewrite prefetcher_invokes by done. rewrite Hchosen.
    unfold request_of. cbn. by rewrite list_lookup_middle. }
  split.
  { subst w1 i. rewrite call_then_event by done. rewrite Hchosen. cbn.
    unfold status_of. cbn. by rewrite list_lookup_middle. }
  split; [done |]. split.
  { intros trace env' p'. apply prefetcher_deduped. by apply run_is_prefetched. }
  destruct (xhr_load_contract url status) as (_ & _ & _ & _ & ->).
  case_decide; split; intros; congruence.
Qed.

(** ** The theorems at concrete inputs *)

(** An XHR for "/a" answered with 200, then a high-priority call for "/a". *)
Lemma dedup_second_dispatch_is_noop_witness :
  let w1 := deliver 0 (XhrLoad 200)
              (prefetcher legacy_browser "/a" (Some "low") (init legacy_browser)) in
  status_of 0 w1 = Some (Returned Fulfilled (Normal tt))
  ∧ prefetcher modern_browser "/a" (Some "high") w1
    = record_call "/a" (Some "high") w1
  ∧ invocations "/a" (prefetcher modern_browser "/a" (Some "high") w1) = 1.
Proof.
  split; [vm_compute; reflexivity |].
  apply (dedup_second_dispatch_is_noop legacy_browser modern_browser "/a"
           (Some "low") (Some "high") (XhrLoad 200) (init legacy_browser) (Normal tt)).
  vm_compute; reflexivity.
Defined.

(** A call on a "slow-2g" connection. *)
Lemma gating_skips_dispatch_witness :
  includes "2g" "slow-2g" = true
  ∧ tasks (prefetcher slow_browser "/a" (Some "low") (init slow_browser)) = []
  ∧ is_prefetched (prefetcher slow_browser "/a" (Some "low") (init slow_browser)) "/a"
    = false.
Proof.
  split; [reflexivity |].
  destruct (gating_skips_dispatch slow_browser "/a" (Some "low") (init slow_browser)
              {| effectiveType := Some "slow-2g"; saveData := false |}
              eq_refl (or_introl eq_refl))
    as (_ & Htasks & _ & _ & Hmarked).
  split; [exact Htasks | exact Hmarked].
Defined.

(** An XHR for "/a" answered with 404. *)
Lemma failure_swallowed_success_recorded_witness :
  let w1 := deliver 0 (XhrLoad 404)
              (prefetcher legacy_browser "/a" (Some "low") (init legacy_browser)) in
  status_of 0 w1 = Some (Returned Rejected (Normal tt))
  ∧ is_prefetched w1 "/a" = false
  ∧ invocations "/a" (prefetcher legacy_browser "/a" None w1) = 2.
Proof.
  split; [vm_compute; reflexivity |].
  destruct (failure_swallowed_success_recorded legacy_browser "/a" (Some "low")
              (XhrLoad 404) (init legacy_browser) Rejected (Normal tt))
    as (_ & _ & Hnot & _ & Hagain); [vm_compute; reflexivity |].
  split; [exact Hnot |]. exact (Hagain legacy_browser None eq_refl).
Defined.

(** A link element for "/a" whose load event fires. *)
Lemma marked_exactly_on_success_witness :
  let w0 := prefetcher modern_browser "/a" (Some "low") (init modern_browser) in
  is_prefetched (init modern_browser) "/a" = false
  ∧ network_gate modern_browser = false
  ∧ is_prefetched w0 "/a" = false
  ∧ (is_prefetched (deliver 0 LinkLoad w0) "/a" = true
     ↔ status_of 0 (deliver 0 LinkLoad w0) = Some (Returned Fulfilled (Normal tt))).
Proof.
  split; [vm_compute; reflexivity |]. split; [reflexivity |].
  destruct (marked_exactly_on_success modern_browser "/a" (Some "low") LinkLoad
              (init modern_browser))
    as (_ & Hnot & Hiff & _); [vm_compute; reflexivity | reflexivity |].
  split; [exact Hnot | exact Hiff].
Defined.

(** A high-priority call in a browser with [fetch] and [relList]. *)
Lemma strategy_selection_witness :
  is_prefetched (run (init modern_browser) []) "/a" = false
  ∧ network_gate modern_browser = false
  ∧ request_of 0 (prefetcher modern_browser "/a" (Some "high") (init modern_browser))
    = Some (FetchCall "/a" "include").
Proof.
  split; [vm_compute; reflexivity |]. split; [reflexivity |].
  destruct (strategy_selection modern_browser [] modern_browser "/a" (Some "high"))
    as [_ Hreq]; [vm_compute; reflexivity | reflexivity |].
  exact Hreq.
Defined.

(** Two anchors for "/a" and one for "/b" registered, then the two anchors
    for "/a" reported intersecting, twice. *)
Lemma registry_entry_fires_once_witness :
  let w := run (init modern_browser) [(modern_browser, Pass scope_options)] in
  let batch := [ {| isIntersecting := true; target := anchor_a |};
                 {| isIntersecting := true; target := anchor_a' |} ] in
  let trace := [(modern_browser, Notify batch); (modern_browser, Notify batch)] in
  Forall (λ ea : Env * Action, environment_action ea.2 = true) trace
  ∧ (dispatches "/a" (run w trace) ≤ 1)%nat.
Proof.
  intros w batch trace.
  assert (Htrace : Forall (λ ea : Env * Action, environment_action ea.2 = true) trace)
    by (repeat constructor).
  split; [exact Htrace |].
  destruct (registry_entry_fires_once modern_browser
              [(modern_browser, Pass scope_options)])
    as (_ & _ & _ & Honce & _).
  exact (proj1 (Honce "/a" trace Htrace)).
Defined.

(** The list ["/a"; "/b"] with a scope that links to both. *)
Lemma explicit_urls_bypass_observation_witness :
  urls list_options = Some ["/a"; "/b"]
  ∧ dispatched (scheduling_pass modern_browser list_options (init modern_browser))
    = [("/a", Some "low"); ("/b", Some "low")]
  ∧ observed (scheduling_pass modern_browser list_options (init modern_browser)) = [].
Proof.
  split; [reflexivity |].
  destruct (explicit_urls_bypass_observation modern_browser list_options
              ["/a"; "/b"] (init modern_browser) eq_refl)
    as (Hcalls & Hobs & _).
  split; [exact Hcalls | exact Hobs].
Defined.

(** A low-priority call in a document with no head and no named script. *)
Lemma missing_container_rejects_and_is_swallowed_witness :
  supportedPrefetchStrategy (init bare_browser) = LinkPrefetch
  ∧ is_prefetched (init bare_browser) "/a" = false
  ∧ status_of 0 (prefetcher bare_browser "/a" (Some "low") (init bare_browser))
    = Some (Returned Rejected (Normal tt)).
Proof.
  split; [reflexivity |]. split; [vm_compute; reflexivity |].
  destruct (missing_container_rejects_and_is_swallowed bare_browser
              {| relList := relList modern_document;
                 has_head := false; has_named_script := false |}
              "/a" (Some "low") (init bare_browser))
    as (_ & _ & _ & Hst & _);
    [reflexivity | reflexivity | reflexivity | reflexivity | reflexivity
     | vm_compute; reflexivity | reflexivity |].
  exact Hst.
Defined.

(** A high-priority fetch of "/a" answered with 404. *)
Lemma high_priority_marks_on_any_response_witness :
  is_prefetched (init modern_browser) "/a" = false
  ∧ is_prefetched
      (deliver 0 (FetchResponse 404)
         (prefetcher modern_browser "/a" (Some "high") (init modern_browser))) "/a"
    = true.
Proof.
  split; [vm_compute; reflexivity |].
  destruct (high_priority_marks_on_any_response modern_browser "/a" (Some "high") 404
              (init modern_browser))
    as (_ & _ & Hmarked & _);
    [reflexivity | reflexivity | vm_compute; reflexivity | reflexivity |].
  exact Hmarked.
Defined.

(** * Further properties of the code *)

(** ** The network gate *)

Lemma append_cons a s t : String a s +:+ t = String a (s +:+ t).
Proof. reflexivity. Qed.

Lemma append_empty t : "" +:+ t = t.
Proof. reflexivity. Qed.

Lemma prefix_append needle hay :
  String.prefix needle hay = true ↔ ∃ post, hay = needle +:+ post.
Proof.
  revert hay. induction needle as [| a needle IH]; intros hay.
  - split; [intros _; by exists hay | by destruct hay].
  - destruct hay as [| b hay].
    + split; [done | intros [post Hpost]]. by rewrite append_cons in Hpost.
    + change (String.prefix (String a needle) (String b hay))
        with (if Ascii.ascii_dec a b then String.prefix needle hay else false).
      destruct (Ascii.ascii_dec a b) as [-> | Hne].
      * rewrite IH. split; intros [post Hpost]; exists post.
        -- by rewrite append_cons, Hpost.
        -- rewrite append_cons in Hpost. congruence.
      * split; [done | intros [post Hpost]].
        rewrite append_cons in Hpost. congruence.
Qed.

(** [includes] finds exactly the occurrences of the needle. *)
Lemma includes_occurrence needle hay :
  includes needle hay = true ↔ ∃ pre post, hay = pre +:+ needle +:+ post.
Proof.
  induction hay as [| a hay IH].
  - change (includes needle "") with (String.prefix needle "" || false).
    rewrite orb_false_r, prefix_append. split.
    + intros [post Hpost]. by exists "", post.
    + intros (pre & post & Heq).
      destruct pre; [by exists post | by rewrite append_cons in Heq].
  - change (includes needle (String a hay))
      with (String.prefix needle (String a hay) || includes needle hay).
    rewrite orb_true_iff, prefix_append, IH. split.
    + intros [[post Hpost] | (pre & post & Hrest)].
      * by exists "", post.
      * exists (String a pre), post. by rewrite append_cons, Hrest.
    + intros (pre & post & Heq). destruct pre as [| b pre].
      * left. by exists post.
      * right. rewrite append_cons in Heq. injection Heq as _ Hrest.
        by exists pre, post.
Qed.

(** X1. The guards on [navigator.connection] fire exactly when [navigator]
    has a [connection] and either its [effectiveType] is a string in which
    "2g" occurs or its [saveData] is set; without a [connection], or with an
    [effectiveType] that is [undefined], empty or free of "2g" and
    [saveData] off, the call goes on to the [try] block. *)
Theorem network_gate_fires_exactly env :
  network_gate env = true
  ↔ ∃ connection,
      navigator_connection env = Some connection
      ∧ ((∃ type pre post, effectiveType connection = Some type
                           ∧ type = pre +:+ "2g" +:+ post)
         ∨ saveData connection = true).
Proof.
  unfold network_gate. destruct (navigator_connection env) as [c |].
  - destruct (includes "2g" (default "" (effectiveType c))) eqn:Hinc.
    + split; [intros _ | done]. exists c. split; [done |]. left.
      apply includes_occurrence in Hinc as (pre & post & Heq).
      destruct (effectiveType c) as [type |].
      * by exists type, pre, post.
      * destruct pre; [by destruct post | by rewrite append_cons in Heq].
    + assert (Hno : ¬ ∃ type pre post, effectiveType c = Some type
                                       ∧ type = pre +:+ "2g" +:+ post).
      { intros (type & pre & post & Htype & Heq).
        rewrite Htype in Hinc. cbn in Hinc.
        assert (includes "2g" type = true); [| congruence].
        apply includes_occurrence. by exists pre, post. }
      destruct (saveData c) eqn:Hsave.
      * split; [intros _ | done]. exists c. split; [done | by right].
      * split; [done |]. intros (c' & [= <-] & [Hocc | Hs]); [done | congruence].
  - split; [done | by intros (c & ? & _)].
Qed.

(** ** The capability probe *)

(** X2. [support] never throws, and the link strategy becomes the default
    exactly when a document exists, [relList] is truthy, its [supports] is a
    function and [supports(`prefetch`)] returns [true]; an absent document,
    an absent [relList], a [supports] that is no function, one that throws
    and one that answers [false] all select the XHR strategy. *)
Theorem link_strategy_selected_exactly env :
  select_strategy env = LinkPrefetch
  ↔ ∃ doc rl f,
      document env = Some doc ∧ relList doc = Some rl
      ∧ supports rl = Some f ∧ f "prefetch" = Normal true.
Proof.
  split.
  - unfold select_strategy, support.
    destruct (document env) as [doc |]; [| done].
    destruct (relList doc) as [rl |] eqn:Hrl; [| done].
    destruct (supports rl) as [f |] eqn:Hf; [| done].
    destruct (f "prefetch") as [[] | e] eqn:Hres; [| done | done].
    intros _. by exists doc, rl, f.
  - intros (doc & rl & f & Hdoc & Hrl & Hf & Hres).
    unfold select_strategy, support. by rewrite Hdoc, Hrl, Hf, Hres.
Qed.

(** ** Invariants of every run *)

(** A property kept by a call of [prefetcher], by an event and by the two
    writes of [index.mjs] is kept by every run of the page. *)
Lemma run_invariant (P : World → Prop) :
  (∀ env url p w, P w → P (prefetcher env url p w)) →
  (∀ i ev w, P w → P (deliver i ev w)) →
  (∀ lf w, P w → P (set_loaderFunctions lf w)) →
  (∀ obs w, P w → P (set_observed obs w)) →
  ∀ w trace, P w → P (run w trace).
Proof.
  intros Hcall Hevent Hreg Hobs w trace. unfold run.
  apply foldl_invariant. clear w. intros w [env a] Hw.
  destruct a as [url p | i ev | options | entries]; unfold step; cbn.
  - by apply Hcall.
  - by apply Hevent.
  - unfold scheduling_pass. destruct (urls options) as [us |].
    + apply foldl_invariant; [| done]. intros w' url ?. by apply Hcall.
    + apply foldl_invariant.
      { intros w' url ?. unfold register. by apply Hreg. }
      apply foldl_invariant; [| done]. intros w' link ?. by apply Hobs.
  - unfold observer_callback. apply foldl_invariant; [| done].
    intros w' entry Hw'. unfold on_entry.
    destruct (loaderFunctions w' !! href (target entry)); [| done].
    unfold call_loader. by apply Hcall, Hreg.
Qed.

Lemma preFetched_put_other url url' pf :
  url ≠ url' → preFetched_get (preFetched_put url pf) url' = preFetched_get pf url'.
Proof.
  unfold preFetched_get, preFetched_put. intros Hne.
  destruct (String.eqb url "__proto__"); [done |].
  f_equal. apply bool_decide_ext.
  rewrite elem_of_union, elem_of_singleton. intuition congruence.
Qed.

Lemma filter_insert_length {A} (P : A → Prop) `{!∀ x, Decision (P x)}
    (l : list A) i x y :
  l !! i = Some x → (P x ↔ P y) →
  length (filter P (<[i := y]> l)) = length (filter P l).
Proof.
  intros Hx Hxy. revert i Hx. induction l as [| z l IH]; intros i Hx; [done |].
  destruct i as [| i].
  - injection Hx as ->. change (<[0 := y]> (x :: l)) with (y :: l).
    rewrite !filter_cons.
    destruct (decide (P y)), (decide (P x)); cbn; tauto.
  - change (<[S i := y]> (z :: l)) with (z :: <[i := y]> l).
    rewrite !filter_cons. destruct (decide (P z)); cbn; by rewrite IH.
Qed.

Lemma invocations_deliver u i ev w : invocations u (deliver i ev w) = invocations u w.
Proof.
  destruct (deliver_cases i ev w) as [-> | (t & r & o & Ht & _ & _ & _ & ->)];
    [done |].
  unfold invocations. cbn. by eapply filter_insert_length.
Qed.

Lemma invocations_prefetcher u env url p w :
  invocations u (prefetcher env url p w)
  = invocations u w
    + (if decide (url = u)
       then if is_prefetched w url || network_gate env then 0 else 1
       else 0).
Proof.
  destruct (is_prefetched w url) eqn:Hpf.
  { rewrite prefetcher_deduped by done. cbn. unfold invocations. cbn.
    case_decide; lia. }
  destruct (network_gate env) eqn:Hgate.
  { rewrite prefetcher_gated by done. cbn. unfold invocations. cbn.
    case_decide; lia. }
  rewrite prefetcher_invokes by done. rewrite invocations_snoc. cbn.
  unfold invocations. by case_decide.
Qed.

Lemma run_marked_frozen u w trace :
  is_prefetched w u = true →
  is_prefetched (run w trace) u = true
  ∧ invocations u (run w trace) = invocations u w.
Proof.
  intros Hmarked.
  apply (run_invariant
           (λ w', is_prefetched w' u = true ∧ invocations u w' = invocations u w));
    [| | | | done].
  - intros env url p w' [Hm <-]. split.
    + unfold is_prefetched. by rewrite prefetcher_preFetched.
    + rewrite invocations_prefetcher.
      destruct (decide (url = u)) as [-> | _]; [| lia]. rewrite Hm. cbn. lia.
  - intros i ev w' [Hm <-]. split.
    + eapply preFetched_get_subseteq; [apply deliver_preFetched_grows | done].
    + apply invocations_deliver.
  - by intros lf w' [Hm <-].
  - by intros obs w' [Hm <-].
Qed.

(** X3. Once [preFetched[url]] is truthy it stays truthy, and nothing the
    page does afterwards (calls of [prefetcher], scheduling passes,
    intersection notifications, network events) invokes a strategy for
    that url again. *)
Theorem marked_url_is_never_fetched_again u w trace :
  is_prefetched w u = true →
  is_prefetched (run w trace) u = true
  ∧ invocations u (run w trace) = invocations u w.
Proof. apply run_marked_frozen. Qed.

(** X4. A url named like a property of [Object.prototype] ("constructor",
    "toString", "__proto__" and the others) passes for prefetched from the
    start: every call of [prefetcher] for it returns at the first guard,
    and no run of the page ever invokes a strategy for it. *)
Theorem prototype_names_are_never_fetched url :
  url ∈ object_prototype →
  (∀ env p w, prefetcher env url p w = record_call url p w)
  ∧ (∀ env0 trace, invocations url (run (init env0) trace) = 0).
Proof.
  intros Hproto.
  assert (Hall : ∀ w, is_prefetched w url = true).
  { intros w. unfold is_prefetched, preFetched_get.
    apply orb_true_iff. right. by apply bool_decide_eq_true. }
  split.
  - intros env p w. by apply prefetcher_deduped.
  - intros env0 trace.
    by destruct (run_marked_frozen url (init env0) trace (Hall _)) as [_ ->].
Qed.

(** X5. The first guard reads [preFetched], which is written only after the
    [await]: a second call for a url whose first request is still in flight
    passes the guard too, so the two calls make two strategy invocations. *)
Theorem calls_in_flight_are_not_deduplicated env env' url p p' w :
  is_prefetched w url = false →
  network_gate env = false → network_gate env' = false →
  invocations url (prefetcher env' url p' (prefetcher env url p w))
  = S (S (invocations url w))
  ∧ length (tasks (prefetcher env' url p' (prefetcher env url p w)))
    = S (S (length (tasks w))).
Proof.
  intros Hpf Hgate Hgate'.
  assert (Hpf' : is_prefetched (prefetcher env url p w) url = false).
  { unfold is_prefetched. by rewrite prefetcher_preFetched. }
  split.
  - rewrite !invocations_prefetcher, Hpf, Hpf', Hgate, Hgate'.
    rewrite decide_True by done. cbn. lia.
  - rewrite (prefetcher_invokes env' url p' _ Hpf' Hgate').
    rewrite (prefetcher_invokes env url p w Hpf Hgate). cbn.
    rewrite !length_app. cbn. lia.
Qed.

(** X6. An event on the request of one call touches nothing but that
    call's task and the mark of that call's url: every other url is as
    prefetched as before, and the registry, the observed elements, the call
    trace and the number of tasks are unchanged. *)
Theorem event_marks_only_its_own_url i ev u w :
  (∀ t, tasks w !! i = Some t → task_url t ≠ u) →
  is_prefetched (deliver i ev w) u = is_prefetched w u
  ∧ loaderFunctions (deliver i ev w) = loaderFunctions w
  ∧ observed (deliver i ev w) = observed w
  ∧ dispatched (deliver i ev w) = dispatched w
  ∧ length (tasks (deliver i ev w)) = length (tasks w).
Proof.
  intros Hother.
  rewrite deliver_loaderFunctions, deliver_observed, deliver_dispatched.
  destruct (deliver_cases i ev w) as [-> | (t & r & o & Ht & _ & _ & _ & ->)];
    [done |].
  cbn. rewrite length_insert. repeat split.
  unfold is_prefetched. cbn. destruct o; [| done].
  apply preFetched_put_other. by apply Hother.
Qed.

(** ** What is marked, and how calls end *)


Lemma prefetcher_tasks env url p w :
  tasks (prefetcher env url p w)
  = tasks w ++ (if is_prefetched w url || network_gate env then []
                else [task_of env p w url]).
Proof.
  destruct (is_prefetched w url) eqn:Hpf.
  { rewrite prefetcher_deduped by done. cbn. by rewrite app_nil_r. }
  destruct (network_gate env) eqn:Hgate.
  { rewrite prefetcher_gated by done. cbn. by rewrite app_nil_r. }
  by rewrite prefetcher_invokes.
Qed.



(** ** The pass over an explicit list *)

Lemma task_of_ext env p w w' url :
  supportedPrefetchStrategy w' = supportedPrefetchStrategy w →
  task_of env p w' url = task_of env p w url.
Proof. unfold task_of, chosen. by intros ->. Qed.

Lemma foldl_prefetcher_tasks env p us w0 w :
  preFetched w = preFetched w0 →
  supportedPrefetchStrategy w = supportedPrefetchStrategy w0 →
  tasks (foldl (λ w url, prefetcher env url p w) w us)
  = tasks w
    ++ (if network_gate env then []
        else task_of env p w0 <$> filter (λ u, is_prefetched w0 u = false) us).
Proof.
  revert w. induction us as [| u us IH]; intros w Hpf Hstrat; cbn [foldl].
  - rewrite filter_nil. cbn. destruct (network_gate env); by rewrite app_nil_r.
  - rewrite IH;
      [| by rewrite prefetcher_preFetched | by rewrite prefetcher_strategy].
    rewrite prefetcher_tasks, filter_cons.
    assert (Hsame : is_prefetched w u = is_prefetched w0 u).
    { unfold is_prefetched. by rewrite Hpf. }
    rewrite Hsame. destruct (network_gate env).
    + rewrite orb_true_r. by rewrite !app_nil_r.
    + rewrite orb_false_r. destruct (is_prefetched w0 u) eqn:Hu.
      * rewrite decide_False by done. by rewrite app_nil_r.
      * rewrite decide_True by done. rewrite fmap_cons, <- app_assoc. cbn.
        by rewrite (task_of_ext env p w0 w u Hstrat).
Qed.

(** X8. A pass over an explicit list invokes a strategy once for every
    entry of the list whose url is not yet prefetched, in list order, an
    entry that occurs twice included; behind the network gate it invokes
    none.  It marks nothing by itself. *)
Theorem list_pass_invokes_each_unmarked_entry env options us w :
  urls options = Some us →
  tasks (scheduling_pass env options w)
  = tasks w
    ++ (if network_gate env then []
        else task_of env (priority options) w
               <$> filter (λ u, is_prefetched w u = false) us)
  ∧ preFetched (scheduling_pass env options w) = preFetched w.
Proof.
  intros Hurls. split; [| apply scheduling_pass_preFetched].
  unfold scheduling_pass. rewrite Hurls. by apply foldl_prefetcher_tasks.
Qed.

(** ** The pass over a scope *)

Lemma foldl_observe_observed (links : list Anchor) w :
  observed (foldl (λ w link, set_observed (observed w ++ [link]) w) w links)
  = observed w ++ links.
Proof.
  revert w. induction links as [| a links IH]; intros w; cbn [foldl].
  - by rewrite app_nil_r.
  - rewrite IH. cbn. by rewrite <- app_assoc.
Qed.

Lemma lookup_foldl_insert p (us : list string) (m : gmap string Loader) u :
  foldl (λ m url, <[url := {| loader_url := url; loader_priority := p |}]> m) m us
    !! u
  = if decide (u ∈ us) then Some {| loader_url := u; loader_priority := p |}
    else m !! u.
Proof.
  revert m. induction us as [| v us IH]; intros m; cbn [foldl].
  - by rewrite decide_False by apply not_elem_of_nil.
  - rewrite IH. destruct (decide (u ∈ us)) as [Hin | Hnin].
    + rewrite decide_True; [done | apply elem_of_cons; by right].
    + destruct (decide (v = u)) as [-> | Hne].
      * rewrite decide_True by (apply elem_of_cons; by left).
        apply lookup_insert_eq.
      * rewrite decide_False; [by apply lookup_insert_ne |].
        intros [? | ?]%elem_of_cons; congruence.
Qed.

Lemma scope_pass_effect env options w :
  urls options = None →
  observed (scheduling_pass env options w) = observed w ++ el options
  ∧ (∀ u, loaderFunctions (scheduling_pass env options w) !! u
          = if decide (u ∈ href <$> el options)
            then Some {| loader_url := u; loader_priority := priority options |}
            else loaderFunctions w !! u)
  ∧ dispatched (scheduling_pass env options w) = dispatched w
  ∧ tasks (scheduling_pass env options w) = tasks w
  ∧ preFetched (scheduling_pass env options w) = preFetched w.
Proof.
  intros Hurls. split; [| split; [| split; [| split]]].
  - unfold scheduling_pass. rewrite Hurls.
    rewrite <- foldl_observe_observed.
    by apply (foldl_invariant (λ w', observed w' = observed _)).
  - intros u. rewrite scheduling_pass_registry by done. apply lookup_foldl_insert.
  - unfold scheduling_pass. rewrite Hurls.
    apply (foldl_invariant (λ w', dispatched w' = dispatched w)); [done |].
    by apply (foldl_invariant (λ w', dispatched w' = dispatched w)).
  - unfold scheduling_pass. rewrite Hurls.
    apply (foldl_invariant (λ w', tasks w' = tasks w)); [done |].
    by apply (foldl_invariant (λ w', tasks w' = tasks w)).
  - apply scheduling_pass_preFetched.
Qed.

(** X9. A pass over a scope hands every anchor of the scope to
    [observer.observe], in document order, and stores for each href a loader
    with the priority of this pass, replacing a loader an earlier pass stored
    for that href and leaving the loaders of other urls alone.  The pass
    itself calls no dispatcher, invokes no strategy and marks nothing. *)
Theorem scope_pass_registers_and_fetches_nothing env options w :
  urls options = None →
  observed (scheduling_pass env options w) = observed w ++ el options
  ∧ (∀ u, loaderFunctions (scheduling_pass env options w) !! u
          = if decide (u ∈ href <$> el options)
            then Some {| loader_url := u; loader_priority := priority options |}
            else loaderFunctions w !! u)
  ∧ dispatched (scheduling_pass env options w) = dispatched w
  ∧ tasks (scheduling_pass env options w) = tasks w
  ∧ preFetched (scheduling_pass env options w) = preFetched w.
Proof. apply scope_pass_effect. Qed.

(** X16. Running the pass over the same scope a second time, as a second
    call of the entry point does, leaves the registry as the first pass
    left it: one loader per href, not two. *)
Theorem scope_pass_twice_registers_once env env' options w :
  urls options = None →
  loaderFunctions (scheduling_pass env' options (scheduling_pass env options w))
  = loaderFunctions (scheduling_pass env options w).
Proof.
  intros Hurls. apply map_eq. intros u.
  destruct (scope_pass_effect env' options (scheduling_pass env options w) Hurls)
    as (_ & -> & _).
  destruct (scope_pass_effect env options w Hurls) as (_ & Hfirst & _).
  rewrite Hfirst. by case_decide.
Qed.

(** ** Notifications after a pass *)

Lemma filter_intersecting (anchors : list Anchor) :
  filter (λ entry, isIntersecting entry = true) (intersecting <$> anchors)
  = intersecting <$> anchors.
Proof.
  induction anchors as [| a anchors IH]; [done |].
  rewrite fmap_cons, filter_cons. rewrite decide_True by done. by rewrite IH.
Qed.

(** Firing the loaders of anchors with pairwise different hrefs. *)
Lemma fire_registered env p (anchors : list Anchor) w :
  NoDup (href <$> anchors) →
  (∀ a, a ∈ anchors →
        loaderFunctions w !! href a
        = Some {| loader_url := href a; loader_priority := p |}) →
  dispatched (foldl (on_entry env) w (intersecting <$> anchors))
  = dispatched w ++ ((λ a, (href a, p)) <$> anchors)
  ∧ ∀ u, loaderFunctions (foldl (on_entry env) w (intersecting <$> anchors)) !! u
         = if decide (u ∈ href <$> anchors) then None else loaderFunctions w !! u.
Proof.
  revert w. induction anchors as [| a anchors IH]; intros w Hnodup Hreg.
  - cbn. split; [by rewrite app_nil_r |]. intros u.
    by rewrite decide_False by apply not_elem_of_nil.
  - rewrite fmap_cons in Hnodup. apply NoDup_cons in Hnodup as [Hfresh Hnodup].
    rewrite fmap_cons. cbn [foldl].
    assert (Hstep : on_entry env w (intersecting a)
                    = prefetcher env (href a) p
                        (set_loaderFunctions (delete (href a) (loaderFunctions w)) w)).
    { unfold on_entry. cbn. rewrite (Hreg a) by (apply elem_of_cons; by left).
      done. }
    rewrite Hstep.
    destruct (IH (prefetcher env (href a) p
                    (set_loaderFunctions (delete (href a) (loaderFunctions w)) w)))
      as [Hcalls Hleft]; [done | |].
    { intros b Hb. rewrite prefetcher_loaderFunctions. cbn.
      rewrite lookup_delete_ne; [apply Hreg, elem_of_cons; by right |].
      intros Heq. apply Hfresh. rewrite Heq. by apply list_elem_of_fmap_2. }
    split.
    + rewrite Hcalls, prefetcher_dispatched. cbn. by rewrite <- app_assoc.
    + intros u. rewrite Hleft, prefetcher_loaderFunctions. cbn.
      destruct (decide (u ∈ href <$> anchors)) as [Hin | Hnin].
      * rewrite decide_True; [done | apply elem_of_cons; by right].
      * destruct (decide (u = href a)) as [-> | Hne].
        -- rewrite decide_True by (apply elem_of_cons; by left).
           apply lookup_delete_eq.
        -- rewrite decide_False; [by apply lookup_delete_ne |].
           intros [? | ?]%elem_of_cons; congruence.
Qed.

(** X10. After a pass over a scope whose anchors have pairwise different
    hrefs, a notification that reports all of them intersecting calls the
    dispatcher once per anchor, in the order of the batch, with the href of
    the anchor and the priority of the pass, and leaves no loader for any
    of them; loaders of other urls stay. *)
Theorem notification_dispatches_each_link_once env env' options w :
  urls options = None →
  NoDup (href <$> el options) →
  let w1 := scheduling_pass env options w in
  let w2 := observer_callback env' (intersecting <$> el options) w1 in
  dispatched w2
  = dispatched w ++ ((λ a, (href a, priority options)) <$> el options)
  ∧ ∀ u, loaderFunctions w2 !! u
         = if decide (u ∈ href <$> el options) then None
           else loaderFunctions w !! u.
Proof.
  intros Hurls Hnodup w1 w2. subst w1 w2.
  destruct (scope_pass_effect env options w Hurls) as (_ & Hreg & Hcalls & _).
  unfold observer_callback. rewrite filter_intersecting.
  destruct (fire_registered env' (priority options) (el options)
              (scheduling_pass env options w) Hnodup) as [Hfired Hleft].
  { intros a Ha. rewrite Hreg.
    rewrite decide_True; [done | by apply list_elem_of_fmap_2]. }
  split; [by rewrite Hfired, Hcalls |].
  intros u. rewrite Hleft, Hreg. by case_decide.
Qed.


(** ** The three routes, end to end *)

Lemma route_then_event env url p ev w r o :
  is_prefetched w url = false → network_gate env = false →
  chosen env url p w = {| issued := Some r; promise := Pending |} →
  handle r ev = Some o →
  let i := length (tasks w) in
  let w1 := deliver i ev (prefetcher env url p w) in
  request_of i (prefetcher env url p w) = Some r
  ∧ status_of i w1 = Some (Returned o (Normal tt))
  ∧ is_prefetched w1 url = match o with Fulfilled => true | Rejected => false end.
Proof.
  intros Hpf Hgate Hchosen Hh i w1. subst i w1. split.
  { rewrite prefetcher_invokes by done. rewrite Hchosen.
    unfold request_of. cbn. by rewrite list_lookup_middle. }
  rewrite call_then_event by done. rewrite Hchosen. cbn. rewrite Hh. split.
  - unfold status_of. cbn. by rewrite list_lookup_middle.
  - unfold is_prefetched. cbn. destruct o; [by apply preFetched_put_get | done].
Qed.


(** X13. On the link route, in a document with a head or with an element
    named [script], the call appends a link element with [rel=prefetch]
    and the url as href, to the head when there is one and to the parent of
    the named element otherwise; the load event of that element marks the
    url, its error event leaves it unmarked and ends the call quietly. *)
Theorem link_route_appends_and_follows_the_events env doc url p w :
  document env = Some doc →
  has_head doc = true ∨ has_named_script doc = true →
  is_high p = false → supportedPrefetchStrategy w = LinkPrefetch →
  is_prefetched w url = false → network_gate env = false →
  let i := length (tasks w) in
  let w0 := prefetcher env url p w in
  request_of i w0
  = Some (AppendLink (if has_head doc then HeadElement else ParentOf "script")
            {| link_rel := "prefetch"; link_href := url;
               link_onload := Some Fulfilled; link_onerror := Some Rejected |})
  ∧ is_prefetched (deliver i LinkLoad w0) url = true
  ∧ is_prefetched (deliver i LinkError w0) url = false
  ∧ status_of i (deliver i LinkError w0) = Some (Returned Rejected (Normal tt)).
Proof.
  intros Hdoc Hcontainer Hlow Hlink Hpf Hgate i w0.
  set (link := {| link_rel := "prefetch"; link_href := url;
                  link_onload := Some Fulfilled; link_onerror := Some Rejected |}).
  set (parent := if has_head doc then HeadElement else ParentOf "script").
  assert (Hchosen : chosen env url p w
                    = {| issued := Some (AppendLink parent link); promise := Pending |}).
  { unfold chosen, call_strategy, linkPrefetchStrategy, link_executor.
    rewrite Hlow, Hlink, Hdoc. subst parent.
    destruct (has_head doc); [done |].
    destruct Hcontainer as [? | ->]; done. }
  destruct (route_then_event env url p LinkLoad w _ Fulfilled Hpf Hgate Hchosen eq_refl)
    as (Hreq & _ & Hload).
  destruct (route_then_event env url p LinkError w _ Rejected Hpf Hgate Hchosen eq_refl)
    as (_ & Hst & Herror).
  done.
Qed.

(** X14. With no document at the time of the call, the link strategy
    rejects on the spot: no element is created, the call ends quietly with
    the url unmarked, no later event can change that, and the next ungated
    call invokes a strategy for the url again. *)
Theorem link_route_without_document_rejects_at_once env url p w :
  document env = None →
  is_high p = false → supportedPrefetchStrategy w = LinkPrefetch →
  is_prefetched w url = false → network_gate env = false →
  let i := length (tasks w) in
  let w0 := prefetcher env url p w in
  request_of i w0 = None
  ∧ status_of i w0 = Some (Returned Rejected (Normal tt))
  ∧ is_prefetched w0 url = false
  ∧ (∀ ev, deliver i ev w0 = w0)
  ∧ ∀ env' p', network_gate env' = false →
      invocations url (prefetcher env' url p' w0) = S (invocations url w0).
Proof.
  intros Hdoc Hlow Hlink Hpf Hgate i w0.
  assert (Hchosen : chosen env url p w
                    = {| issued := None; promise := Settled Rejected |}).
  { unfold chosen, call_strategy, linkPrefetchStrategy, link_executor.
    by rewrite Hlow, Hlink, Hdoc. }
  assert (Hw0 : w0 = set_tasks
                       (tasks w ++ [{| task_url := url; task_issued := None;
                                       task_status := Returned Rejected (Normal tt) |}])
                       (record_call url p w)).
  { subst w0. rewrite prefetcher_invokes by done. by rewrite Hchosen. }
  assert (Hlook : tasks w0 !! i
                  = Some {| task_url := url; task_issued := None;
                            task_status := Returned Rejected (Normal tt) |}).
  { rewrite Hw0. cbn. by apply list_lookup_middle. }
  assert (Hpf0 : is_prefetched w0 url = false).
  { subst w0. unfold is_prefetched. by rewrite prefetcher_preFetched. }
  split; [unfold request_of; by rewrite Hlook |].
  split; [unfold status_of; by rewrite Hlook |].
  split; [done |]. split.
  - intros ev. by eapply deliver_returned.
  - intros env' p' Hgate'. rewrite invocations_prefetcher.
    rewrite decide_True by done. rewrite Hpf0, Hgate'. cbn. lia.
Qed.

(** X15. On the fetch route a network failure, the one case in which the
    promise of [fetch] is rejected, leaves the url unmarked and ends the
    call quietly; the next ungated call invokes a strategy for it again. *)
Theorem fetch_route_failure_leaves_url_retryable env url p w :
  self_fetch env = true → is_high p = true →
  is_prefetched w url = false → network_gate env = false →
  let i := length (tasks w) in
  let w1 := deliver i FetchNetworkError (prefetcher env url p w) in
  status_of i w1 = Some (Returned Rejected (Normal tt))
  ∧ is_prefetched w1 url = false
  ∧ ∀ env' p', network_gate env' = false →
      invocations url (prefetcher env' url p' w1) = S (invocations url w1).
Proof.
  intros Hfetch Hhigh Hpf Hgate i w1.
  assert (Hchosen : chosen env url p w
                    = {| issued := Some (FetchCall url "include"); promise := Pending |}).
  { unfold chosen, highPriFetchStrategy. by rewrite Hhigh, Hfetch. }
  destruct (route_then_event env url p FetchNetworkError w _ Rejected
              Hpf Hgate Hchosen eq_refl) as (_ & Hst & Hmark).
  split; [done |]. split; [done |].
  intros env' p' Hgate'. rewrite invocations_prefetcher.
  rewrite decide_True by done. fold i in Hmark. fold w1 in Hmark.
  rewrite Hmark, Hgate'. cbn. lia.
Qed.

(** ** The further properties at concrete inputs *)

(** "/a" fetched with success, then called and listed again. *)
Lemma marked_url_is_never_fetched_again_witness :
  let trace := [(legacy_browser, Dispatch "/a" None);
                (modern_browser, Pass list_options)] in
  is_prefetched after_success "/a" = true
  ∧ invocations "/a" (run after_success trace) = invocations "/a" after_success.
Proof.
  intros trace. split; [vm_compute; reflexivity |].
  apply (marked_url_is_never_fetched_again "/a" after_success trace).
  vm_compute; reflexivity.
Defined.

(** The url "constructor". *)
Lemma prototype_names_are_never_fetched_witness :
  "constructor" ∈ object_prototype
  ∧ invocations "constructor"
      (run (init modern_browser) [(modern_browser, Dispatch "constructor" None)])
    = 0.
Proof.
  assert (Hin : "constructor" ∈ object_prototype) by (apply elem_of_cons; by left).
  split; [exact Hin |].
  exact (proj2 (prototype_names_are_never_fetched "constructor" Hin)
           modern_browser [(modern_browser, Dispatch "constructor" None)]).
Defined.

(** Two calls for "/a" in a row. *)
Lemma calls_in_flight_are_not_deduplicated_witness :
  is_prefetched (init legacy_browser) "/a" = false
  ∧ invocations "/a"
      (prefetcher modern_browser "/a" (Some "high")
         (prefetcher legacy_browser "/a" (Some "low") (init legacy_browser)))
    = 2.
Proof.
  split; [vm_compute; reflexivity |].
  exact (proj1 (calls_in_flight_are_not_deduplicated legacy_browser modern_browser
                  "/a" (Some "low") (Some "high") (init legacy_browser)
                  ltac:(vm_compute; reflexivity) eq_refl eq_refl)).
Defined.

(** The XHR for "/a" answered with 200, seen from "/b". *)
Lemma event_marks_only_its_own_url_witness :
  (∀ t, tasks in_flight !! 0 = Some t → task_url t ≠ "/b")
  ∧ is_prefetched (deliver 0 (XhrLoad 200) in_flight) "/b"
    = is_prefetched in_flight "/b".
Proof.
  assert (Hother : ∀ t, tasks in_flight !! 0 = Some t → task_url t ≠ "/b").
  { intros t Ht. vm_compute in Ht. injection Ht as <-. discriminate. }
  split; [exact Hother |].
  exact (proj1 (event_marks_only_its_own_url 0 (XhrLoad 200) "/b" in_flight Hother)).
Defined.

(** The list ["/a"; "/b"] after "/a" was fetched: one request, for "/b". *)
Lemma list_pass_invokes_each_unmarked_entry_witness :
  urls list_options = Some ["/a"; "/b"]
  ∧ length (tasks (scheduling_pass legacy_browser list_options after_success))
    = 2.
Proof.
  split; [reflexivity |].
  rewrite (proj1 (list_pass_invokes_each_unmarked_entry legacy_browser list_options
                    ["/a"; "/b"] after_success eq_refl)).
  vm_compute; reflexivity.
Defined.

(** A scope with two anchors for "/a" and one for "/b". *)
Lemma scope_pass_registers_and_fetches_nothing_witness :
  urls scope_options = None
  ∧ observed (scheduling_pass modern_browser scope_options (init modern_browser))
    = [anchor_a; anchor_a'; anchor_b]
  ∧ tasks (scheduling_pass modern_browser scope_options (init modern_browser)) = [].
Proof.
  split; [reflexivity |].
  destruct (scope_pass_registers_and_fetches_nothing modern_browser scope_options
              (init modern_browser) eq_refl) as (Hobs & _ & _ & Htasks & _).
  split; [exact Hobs | exact Htasks].
Defined.

(** Anchors for "/a" and "/b" registered with priority high, both reported. *)
Lemma notification_dispatches_each_link_once_witness :
  NoDup (href <$> el distinct_options)
  ∧ dispatched
      (observer_callback slow_browser (intersecting <$> el distinct_options)
         (scheduling_pass modern_browser distinct_options (init modern_browser)))
    = [("/a", Some "high"); ("/b", Some "high")].
Proof.
  assert (Hnodup : NoDup (href <$> el distinct_options)).
  { apply NoDup_cons. split.
    - intros [? | ?%elem_of_nil]%elem_of_cons; [discriminate | done].
    - apply NoDup_singleton. }
  split; [exact Hnodup |].
  exact (proj1 (notification_dispatches_each_link_once modern_browser slow_browser
                  distinct_options (init modern_browser) eq_refl Hnodup)).
Defined.



(** A low-priority call in a browser with [relList] and a head. *)
Lemma link_route_appends_and_follows_the_events_witness :
  supportedPrefetchStrategy (init modern_browser) = LinkPrefetch
  ∧ is_prefetched (init modern_browser) "/a" = false
  ∧ is_prefetched
      (deliver 0 LinkError
         (prefetcher modern_browser "/a" (Some "low") (init modern_browser))) "/a"
    = false.
Proof.
  split; [reflexivity |]. split; [vm_compute; reflexivity |].
  exact (proj1 (proj2 (proj2
           (link_route_appends_and_follows_the_events modern_browser modern_document
              "/a" (Some "low") (init modern_browser)
              eq_refl (or_introl eq_refl) eq_refl eq_refl
              ltac:(vm_compute; reflexivity) eq_refl)))).
Defined.

(** A module loaded with link support, called where [document] is gone. *)
Lemma link_route_without_document_rejects_at_once_witness :
  document no_document = None
  ∧ is_prefetched (init modern_browser) "/a" = false
  ∧ status_of 0 (prefetcher no_document "/a" (Some "low") (init modern_browser))
    = Some (Returned Rejected (Normal tt)).
Proof.
  split; [reflexivity |]. split; [vm_compute; reflexivity |].
  exact (proj1 (proj2
           (link_route_without_document_rejects_at_once no_document "/a"
              (Some "low") (init modern_browser)
              eq_refl eq_refl eq_refl ltac:(vm_compute; reflexivity) eq_refl))).
Defined.

(** A high-priority fetch of "/a" that fails on the network. *)
Lemma fetch_route_failure_leaves_url_retryable_witness :
  is_prefetched (init modern_browser) "/a" = false
  ∧ is_prefetched
      (deliver 0 FetchNetworkError
         (prefetcher modern_browser "/a" (Some "high") (init modern_browser))) "/a"
    = false.
Proof.
  split; [vm_compute; reflexivity |].
  exact (proj1 (proj2
           (fetch_route_failure_leaves_url_retryable modern_browser "/a"
              (Some "high") (init modern_browser)
              eq_refl eq_refl ltac:(vm_compute; reflexivity) eq_refl))).
Defined.

(** The scope with two anchors for "/a" and one for "/b", passed twice. *)
Lemma scope_pass_twice_registers_once_witness :
  urls scope_options = None
  ∧ size (loaderFunctions
            (scheduling_pass slow_browser scope_options
               (scheduling_pass modern_browser scope_options (init modern_browser))))
    = 2.
Proof.
  split; [reflexivity |].
  rewrite (scope_pass_twice_registers_once modern_browser slow_browser scope_options
             (init modern_browser) eq_refl).
  vm_compute; reflexivity.
Defined.
